(** * peerlinks-sqlite-storage: the message store of [lib/storage.js]

    A shallow embedding of the SQLite-backed message store: the two tables
    [messages] and [parents] with their uniqueness constraints, the
    statements the class issues against them, the cursor query and the
    length-prefixed hash-list codec. *)

From Stdlib Require Import ZArith Lia.
From Stdlib Require Import Strings.Byte.
From stdpp Require Import base decidable option numbers list sorting strings.

Local Open Scope Z_scope.

(** ** Buffers *)

(** A Node [Buffer] (and an SQLite BLOB) is a sequence of bytes. *)
Abbreviation Buffer := (list byte).

#[global] Instance byte_eq_dec : EqDecision byte.
Proof.
  intros x y. unfold Decision.
  destruct (Byte.eqb x y) eqn:E.
  - left. apply Byte.byte_dec_bl, E.
  - right. apply Byte.eqb_false, E.
Defined.

(** [Buffer.compare]: unsigned byte-wise lexicographic order, a proper prefix
    sorting first.  SQLite orders BLOB values the same way (memcmp, then
    length). *)
Fixpoint Buffer_compare (a b : Buffer) : comparison :=
  match a, b with
  | [], [] => Eq
  | [], _ :: _ => Lt
  | _ :: _, [] => Gt
  | x :: a', y :: b' =>
      match N.compare (Byte.to_N x) (Byte.to_N y) with
      | Eq => Buffer_compare a' b'
      | c => c
      end
  end.

(** The strict byte-wise order, as a relation. *)
Definition Buffer_lt (a b : Buffer) : Prop := Buffer_compare a b = Lt.

(** What a store to an element of a [Uint8Array] keeps of a number. *)
Definition uint8 (n : nat) : byte :=
  match Byte.of_N (N.of_nat n mod 256) with
  | Some b => b
  | None => x00
  end.

Definition byte_to_nat (b : byte) : nat := N.to_nat (Byte.to_N b).

(** ** Errors *)

Inductive Error :=
| InvalidHash            (* new Error('Invalid hash') *)
| BackwardsByHeight      (* new Error('Backwards query by height is not supported') *)
| TypeError.             (* property read on undefined *)

(** How a call ends: with a value, or by throwing. *)
Inductive completion (A : Type) :=
| Ok (a : A)
| Throw (e : Error).
Arguments Ok {A} a.
Arguments Throw {A} e.

(** ** Hash list codec *)

(** The first loop of [encodeHashList]: the size of the output, unless an
    element is longer than [0xff]. *)
Fixpoint encoded_size (list : list Buffer) : completion nat :=
  match list with
  | [] => Ok 0%nat
  | elem :: rest =>
      if (255 <? length elem)%nat then Throw InvalidHash
      else match encoded_size rest with
           | Ok size => Ok (1 + length elem + size)%nat
           | Throw e => Throw e
           end
  end.

(** The second loop: each element preceded by its length byte.  The loop
    fills [Buffer.alloc(size)] from offset 0 to [size] exactly, so the
    buffer it leaves is this concatenation. *)
Fixpoint encode_elems (list : list Buffer) : Buffer :=
  match list with
  | [] => []
  | elem :: rest => uint8 (length elem) :: elem ++ encode_elems rest
  end.

Definition encodeHashList (list : list Buffer) : completion Buffer :=
  match encoded_size list with
  | Ok _ => Ok (encode_elems list)
  | Throw e => Throw e
  end.

(** [decodeHashList]: [data] below is the part of the buffer from [offset]
    on; one iteration reads the length byte, slices (a slice past the end
    is cut at the end) and pushes.  Every iteration consumes a byte, so
    [length data] iterations are enough. *)
Fixpoint decodeHashList_loop (fuel : nat) (data : Buffer) : list Buffer :=
  match fuel, data with
  | S fuel', len :: rest =>
      take (byte_to_nat len) rest
        :: decodeHashList_loop fuel' (drop (byte_to_nat len) rest)
  | _, _ => []
  end.

Definition decodeHashList (data : Buffer) : list Buffer :=
  decodeHashList_loop (length data) data.

(** ** Tables

    [createTables]: [messages(channel_id, hash, parent_hashes, height, blob)]
    with [PRIMARY KEY(hash)], and [parents(channel_id, hash)] with
    [PRIMARY KEY(hash)] and a unique index on [hash].  A table is the list
    of its rows in insertion order. *)

Module Row.
Record t := mk {
  channel_id : Buffer;
  hash : Buffer;
  parent_hashes : Buffer;
  height : Z;
  blob : Buffer
}.
End Row.

Module Parent.
Record t := mk {
  channel_id : Buffer;
  hash : Buffer
}.
End Parent.

(** The object handed to [addMessage]. *)
Module Message.
Record t := mk {
  channelId : Buffer;
  hash : Buffer;
  height : Z;
  parents : list Buffer;
  data : Buffer
}.
End Message.

(** The database behind [this.db].  [in_transaction] tells that a
    [BEGIN TRANSACTION] was issued and not yet committed. *)
Record Store := mkStore {
  messages : list Row.t;
  parents : list Parent.t;
  in_transaction : bool
}.

Definition empty_store : Store :=
  {| messages := []; parents := []; in_transaction := false |}.

(** [REPLACE INTO]: the rows that clash with the new one on a unique key
    are deleted, then the new row is inserted.  Both tables have [hash] as
    their only unique key. *)
Definition replace_into_messages (row : Row.t) (table : list Row.t) : list Row.t :=
  filter (λ r, Row.hash r ≠ Row.hash row) table ++ [row].

Definition replace_into_parents (row : Parent.t) (table : list Parent.t)
  : list Parent.t :=
  filter (λ r, Parent.hash r ≠ Parent.hash row) table ++ [row].

(** ** ORDER BY and LIMIT *)

Section order_by.
Context {A : Type} (cmp : A → A → comparison).

Fixpoint insert_ordered (x : A) (l : list A) : list A :=
  match l with
  | [] => [x]
  | y :: l' =>
      match cmp x y with
      | Gt => y :: insert_ordered x l'
      | _ => x :: l
      end
  end.

(** A stable sort, as [Array.prototype.sort] is; the keys of an
    [ORDER BY] below are unique in the table, so there the order of
    equal keys does not arise. *)
Definition order_by (l : list A) : list A := foldr insert_ordered [] l.
End order_by.

(** [ORDER BY height ASC, hash ASC] *)
Definition crdt_asc (r1 r2 : Row.t) : comparison :=
  match Z.compare (Row.height r1) (Row.height r2) with
  | Eq => Buffer_compare (Row.hash r1) (Row.hash r2)
  | c => c
  end.

(** [ORDER BY height DESC, hash DESC] *)
Definition crdt_desc (r1 r2 : Row.t) : comparison :=
  match Z.compare (Row.height r2) (Row.height r1) with
  | Eq => Buffer_compare (Row.hash r2) (Row.hash r1)
  | c => c
  end.

(** [ORDER BY hash] *)
Definition hash_asc (r1 r2 : Row.t) : comparison :=
  Buffer_compare (Row.hash r1) (Row.hash r2).

(** [Number.MAX_SAFE_INTEGER]: up to it a JavaScript number is an exact
    integer, [limit + 1] is exact too, and the engine takes the number for
    a [LIMIT] or an [OFFSET].  From [2 ^ 63] on the engine refuses the
    statement; the theorems on offsets and limits are stated up to this
    bound. *)
Definition MAX_SAFE_INTEGER : Z := 2 ^ 53 - 1.

(** [LIMIT limit OFFSET offset], for a limit and an offset the engine
    takes: SQLite reads a negative offset as zero and a negative limit as
    no limit. *)
Definition limit_offset {A} (limit offset : Z) (rows : list A) : list A :=
  let rows := drop (Z.to_nat offset) rows in
  if limit <? 0 then rows else take (Z.to_nat limit) rows.

(** The strict order of the rows of a channel, as a relation. *)
Definition crdt_lt (r1 r2 : Row.t) : Prop := crdt_asc r1 r2 = Lt.

(** ** Messages *)

Definition begin_transaction (s : Store) : Store :=
  {| messages := messages s; parents := parents s; in_transaction := true |}.

Definition commit_transaction (s : Store) : Store :=
  {| messages := messages s; parents := parents s; in_transaction := false |}.

(** [addMessage]: [BEGIN] is issued first; the parameters of the first
    [REPLACE] are built next, and [encodeHashList] may throw there, before
    any row is written and before [COMMIT] is issued.  The writes are
    those of a call made while no transaction is open; the engine refuses
    a [BEGIN] inside an open transaction, and what is proved of the writes
    of a call assumes [in_transaction s = false]. *)
Definition addMessage (s : Store) (message : Message.t)
  : completion unit * Store :=
  let s := begin_transaction s in
  match encodeHashList (Message.parents message) with
  | Throw e => (Throw e, s)
  | Ok parentHashes =>
      let messages' :=
        replace_into_messages
          {| Row.channel_id := Message.channelId message;
             Row.hash := Message.hash message;
             Row.parent_hashes := parentHashes;
             Row.height := Message.height message;
             Row.blob := Message.data message |}
          (messages s) in
      let parents' :=
        foldl (λ table parentHash,
                 replace_into_parents
                   {| Parent.channel_id := Message.channelId message;
                      Parent.hash := parentHash |} table)
              (parents s) (Message.parents message) in
      (Ok tt,
       commit_transaction
         {| messages := messages'; parents := parents';
            in_transaction := in_transaction s |})
  end.

Definition getMessageCount (s : Store) (channelId : Buffer) : nat :=
  length (filter (λ r, Row.channel_id r = channelId) (messages s)).

(** The statement has no [ORDER BY]; the engine reads the rows of the
    channel through the index [crdt], in its order. *)
Definition getLeafHashes (s : Store) (channelId : Buffer) : list Buffer :=
  Row.hash <$>
    order_by crdt_asc
      (filter (λ r, Row.channel_id r = channelId ∧
                    Row.hash r ∉
                      (Parent.hash <$>
                         filter (λ p, Parent.channel_id p = channelId)
                                (parents s)))
              (messages s)).

Definition hasMessage (s : Store) (channelId hash : Buffer) : bool :=
  bool_decide
    (length (filter (λ r, Row.channel_id r = channelId ∧ Row.hash r = hash)
                    (messages s)) ≠ 0%nat).

(** [None] is JavaScript's [undefined]. *)
Definition getMessage (s : Store) (channelId hash : Buffer) : option Buffer :=
  Row.blob <$>
    head (filter (λ r, Row.channel_id r = channelId ∧ Row.hash r = hash)
                 (messages s)).

Definition MAX_VARIABLE_COUNT : nat := 900.

(** The [SELECT blob ... hash IN (...) ORDER BY hash] of [getMessages]:
    one row for every stored message of the channel whose hash occurs in
    the list, however often it occurs there. *)
Definition select_blobs (s : Store) (channelId : Buffer)
    (partialHashes : list Buffer) : list Buffer :=
  Row.blob <$>
    order_by hash_asc
      (filter (λ r, Row.channel_id r = channelId ∧ Row.hash r ∈ partialHashes)
              (messages s)).

(** The batching loop of [getMessages]; [offset] grows by
    [MAX_VARIABLE_COUNT] a turn, so [length hashes] turns are enough. *)
Fixpoint getMessages_rows (fuel : nat) (s : Store) (channelId : Buffer)
    (hashes : list Buffer) (offset : nat) (rows : list Buffer) : list Buffer :=
  match fuel with
  | O => rows
  | S fuel' =>
      if (offset <? length hashes)%nat then
        let partialHashes := take MAX_VARIABLE_COUNT (drop offset hashes) in
        let partial := select_blobs s channelId partialHashes in
        getMessages_rows fuel' s channelId hashes
          (offset + MAX_VARIABLE_COUNT)%nat (rows ++ partial)
      else rows
  end.

(** The last loop of [getMessages], [i] being the index in [order]:
    [result[target] = rows[i].blob] throws when [rows[i]] is undefined.
    A slot of [result] not yet written is [None]. *)
Fixpoint getMessages_assign (rows : list Buffer) (i : nat) (order : list nat)
    (result : list (option Buffer)) : completion (list (option Buffer)) :=
  match order with
  | [] => Ok result
  | target :: order' =>
      match rows !! i with
      | None => Throw TypeError
      | Some blob =>
          getMessages_assign rows (S i) order' (<[target := Some blob]> result)
      end
  end.

Definition getMessages (s : Store) (channelId : Buffer) (hashes : list Buffer)
  : completion (list (option Buffer)) :=
  let result := replicate (length hashes) (None : option Buffer) in
  let order :=
    fst <$> order_by (λ a b : nat * Buffer, Buffer_compare (snd a) (snd b))
                     (imap (λ i h, (i, h)) hashes) in
  let rows := getMessages_rows (length hashes) s channelId hashes 0 [] in
  getMessages_assign rows 0 order result.

Definition getHashesAtOffset (s : Store) (channelId : Buffer) (offset limit : Z)
  : list Buffer :=
  Row.hash <$>
    limit_offset limit offset
      (order_by crdt_asc
         (filter (λ r, Row.channel_id r = channelId) (messages s))).

Definition getReverseHashesAtOffset (s : Store) (channelId : Buffer)
    (offset limit : Z) : list Buffer :=
  Row.hash <$>
    limit_offset limit offset
      (order_by crdt_desc
         (filter (λ r, Row.channel_id r = channelId) (messages s))).

(** ** The cursor query *)

(** A cursor with a [hash] takes the first branch of [query], any other
    one is read for its [height]. *)
Inductive Cursor :=
| CursorHash (hash : Buffer)
| CursorHeight (height : Z).

Module Abbreviated.
Record t := mk {
  hash : Buffer;
  parents : list Buffer
}.
End Abbreviated.

Record QueryResult := mkQueryResult {
  abbreviatedMessages : list Abbreviated.t;
  backwardHash : option Buffer;
  forwardHash : option Buffer
}.

(** The [WHERE] clause of the self-join, on a pair of rows
    ([messages], [original]). *)
Definition join_where (channelId hash : Buffer) (isBackward : bool)
    (m original : Row.t) : Prop :=
  Row.channel_id m = channelId ∧
  Row.channel_id original = Row.channel_id m ∧
  Row.hash original = hash ∧
  if isBackward then
    Row.height m < Row.height original ∨
    (Row.height m = Row.height original ∧
     Buffer_compare (Row.hash m) (Row.hash original) = Lt)
  else
    Row.height m > Row.height original ∨
    (Row.height m = Row.height original ∧
     Buffer_compare (Row.hash m) (Row.hash original) ≠ Lt).

#[global] Instance join_where_dec channelId hash isBackward m original :
  Decision (join_where channelId hash isBackward m original).
Proof. unfold join_where. destruct isBackward; apply _. Defined.

(** The self-join [messages JOIN messages AS original] under its [WHERE]
    clause: one copy of [m] for every pair that passes. *)
Definition query_join (s : Store) (channelId hash : Buffer) (isBackward : bool)
  : list Row.t :=
  m ← messages s;
  original ← messages s;
  if decide (join_where channelId hash isBackward m original) then [m] else [].

(** The rows [allAsync] yields; the columns read later are [hash] and
    [parent_hashes]. *)
Definition query_rows (s : Store) (channelId : Buffer) (cursor : Cursor)
    (isBackward : bool) (limit : Z) : completion (list Row.t) :=
  match cursor with
  | CursorHash hash =>
      Ok (limit_offset (limit + 1) 0
            (order_by (if isBackward then crdt_desc else crdt_asc)
                      (query_join s channelId hash isBackward)))
  | CursorHeight height =>
      if isBackward then Throw BackwardsByHeight
      else
        Ok (limit_offset (limit + 1) 0
              (order_by crdt_asc
                 (filter (λ r, Row.channel_id r = channelId ∧
                               Row.height r >= height)
                         (messages s))))
  end.

Definition abbreviate (row : Row.t) : Abbreviated.t :=
  {| Abbreviated.hash := Row.hash row;
     Abbreviated.parents := decodeHashList (Row.parent_hashes row) |}.

Definition cursor_hash (cursor : Cursor) : option Buffer :=
  match cursor with
  | CursorHash hash => Some hash
  | CursorHeight _ => None
  end.

Definition query (s : Store) (channelId : Buffer) (cursor : Cursor)
    (isBackward : bool) (limit : Z) : completion QueryResult :=
  let limit := Z.max 0 limit in
  match query_rows s channelId cursor isBackward limit with
  | Throw e => Throw e
  | Ok rows =>
      let rows := if isBackward then reverse rows else rows in
      let abbreviatedMessages := abbreviate <$> rows in
      if isBackward then
        let forwardHash := cursor_hash cursor in
        if Z.of_nat (length rows) >? limit then
          Ok {| abbreviatedMessages := drop 1 abbreviatedMessages;
                backwardHash := Row.hash <$> head rows;
                forwardHash := forwardHash |}
        else
          Ok {| abbreviatedMessages := abbreviatedMessages;
                backwardHash := None;
                forwardHash := forwardHash |}
      else
        let backwardHash := Row.hash <$> head rows in
        if Z.of_nat (length rows) >? limit then
          Ok {| abbreviatedMessages :=
                  take (length abbreviatedMessages - 1) abbreviatedMessages;
                backwardHash := backwardHash;
                forwardHash := Row.hash <$> last rows |}
        else
          Ok {| abbreviatedMessages := abbreviatedMessages;
                backwardHash := backwardHash;
                forwardHash := None |}
  end.

(** As for [addMessage], the writes are those of a call made while no
    transaction is open. *)
Definition removeChannelMessages (s : Store) (channelId : Buffer) : Store :=
  let s := begin_transaction s in
  let s :=
    {| messages := filter (λ r, Row.channel_id r ≠ channelId) (messages s);
       parents := parents s;
       in_transaction := in_transaction s |} in
  let s :=
    {| messages := messages s;
       parents := filter (λ p, Parent.channel_id p ≠ channelId) (parents s);
       in_transaction := in_transaction s |} in
  commit_transaction s.

(** [clear], on the two tables kept here. *)
Definition clear (s : Store) : Store :=
  {| messages := []; parents := []; in_transaction := in_transaction s |}.

(** What a forward query selects, in words: the rows at or after the
    anchor row (the row of the channel that has the cursor's hash), or the
    rows at or above the cursor's height. *)
Definition forward_selected (s : Store) (channelId : Buffer) (cursor : Cursor)
    (m : Row.t) : Prop :=
  match cursor with
  | CursorHash hash =>
      ∃ anchor, anchor ∈ messages s ∧ Row.channel_id anchor = channelId ∧
        Row.hash anchor = hash ∧
        (Row.height m > Row.height anchor ∨
         (Row.height m = Row.height anchor ∧
          Buffer_compare (Row.hash m) (Row.hash anchor) ≠ Lt))
  | CursorHeight height => Row.height m >= height
  end.

(** What a backward query selects: the rows strictly before the anchor
    row. *)
Definition backward_selected (s : Store) (channelId hash : Buffer)
    (m : Row.t) : Prop :=
  ∃ anchor, anchor ∈ messages s ∧ Row.channel_id anchor = channelId ∧
    Row.hash anchor = hash ∧
    (Row.height m < Row.height anchor ∨
     (Row.height m = Row.height anchor ∧
      Buffer_compare (Row.hash m) (Row.hash anchor) = Lt)).

(** The order of messages, in words: height ascending, then hash
    ascending byte by byte. *)
Definition message_lt (m1 m2 : Message.t) : Prop :=
  Message.height m1 < Message.height m2 ∨
  (Message.height m1 = Message.height m2 ∧
   Buffer_compare (Message.hash m1) (Message.hash m2) = Lt).

(** ** Reachable stores *)

Inductive Op :=
| OpAddMessage (message : Message.t)
| OpRemoveChannelMessages (channelId : Buffer)
| OpClear.

Definition step (s : Store) (op : Op) : Store :=
  match op with
  | OpAddMessage message => snd (addMessage s message)
  | OpRemoveChannelMessages channelId => removeChannelMessages s channelId
  | OpClear => clear s
  end.

Definition run (ops : list Op) : Store := foldl step empty_store ops.

(** What a freshly opened store can become. *)
Inductive reachable : Store → Prop :=
| reachable_empty : reachable empty_store
| reachable_step s op : reachable s → reachable (step s op).

(** ** Leaves, in words *)

(** A message with hash [h] is stored in the channel. *)
Definition stored (s : Store) (channelId h : Buffer) : Prop :=
  Exists (λ r, Row.channel_id r = channelId ∧ Row.hash r = h) (messages s).

(** Some message stored in the channel lists [h] among its parents. *)
Definition referenced (s : Store) (channelId h : Buffer) : Prop :=
  Exists (λ r, Row.channel_id r = channelId ∧
               h ∈ decodeHashList (Row.parent_hashes r))
         (messages s).

#[global] Instance stored_dec s channelId h : Decision (stored s channelId h).
Proof. unfold stored. apply _. Defined.

#[global] Instance referenced_dec s channelId h :
  Decision (referenced s channelId h).
Proof. unfold referenced. apply _. Defined.

(** An [addMessage] that keeps the [parents] table in step with the
    parent lists of the stored messages: a message already stored under the
    hash has the same channel and the same parents, and no parent of the
    message is recorded in [parents] under another channel. *)
Definition add_keeps_edges (s : Store) (message : Message.t) : Prop :=
  Forall (λ r, Row.hash r = Message.hash message →
               Row.channel_id r = Message.channelId message ∧
               decodeHashList (Row.parent_hashes r) = Message.parents message)
         (messages s) ∧
  Forall (λ e, Parent.hash e ∈ Message.parents message →
               Parent.channel_id e = Message.channelId message)
         (parents s).

#[global] Instance add_keeps_edges_dec s message :
  Decision (add_keeps_edges s message).
Proof. unfold add_keeps_edges. apply _. Defined.

(** The stores reached through such additions, purges and [clear]. *)
Inductive reachable_unshared : Store → Prop :=
| unshared_empty : reachable_unshared empty_store
| unshared_add s message :
    reachable_unshared s → add_keeps_edges s message →
    reachable_unshared (snd (addMessage s message))
| unshared_remove s channelId :
    reachable_unshared s →
    reachable_unshared (removeChannelMessages s channelId)
| unshared_clear s : reachable_unshared s → reachable_unshared (clear s).

(** The [parents] table holds the edge (channel, hash) exactly when a
    stored message of the channel lists the hash. *)
Definition edges_agree (s : Store) : Prop :=
  ∀ channelId h,
    Parent.mk channelId h ∈ parents s ↔ referenced s channelId h.

(** ** The stores of the test suite *)

Definition test_channel : Buffer := [x01; x02; x03].

(** [msg(hash, height, parents)], its payload being [`${height}: ${hash}`]
    for the one-digit heights the tests use. *)
Definition msg (hash : byte) (height : Z) (parents : list byte) : Message.t :=
  {| Message.channelId := test_channel;
     Message.hash := [hash];
     Message.height := height;
     Message.parents := (λ p, [p]) <$> parents;
     Message.data :=
       [match height with 0 => x30 | 1 => x31 | 2 => x32 | _ => x3f end;
        x3a; x20; hash] |}.

Definition a_hash : byte := x61.
Definition b_hash : byte := x62.
Definition c_hash : byte := x63.
Definition d_hash : byte := x64.

(** a(h=0), c(h=1), b(h=1), d(h=2), inserted in that order. *)
Definition abcd_store : Store :=
  run [OpAddMessage (msg a_hash 0 []); OpAddMessage (msg c_hash 1 []);
       OpAddMessage (msg b_hash 1 []); OpAddMessage (msg d_hash 2 [])].

(** Two channels whose messages name the same parent hash: [p] and [m]
    live in channel [A], [m] has parent [p]; [n] lives in channel [B] and
    names [p] as its parent too. *)
Definition channel_A : Buffer := [x41].
Definition channel_B : Buffer := [x42].
Definition p_hash : Buffer := [x70].
Definition m_hash : Buffer := [x6d].
Definition n_hash : Buffer := [x6e].

Definition shared_parent_store : Store :=
  run [OpAddMessage
         {| Message.channelId := channel_A; Message.hash := p_hash;
            Message.height := 0; Message.parents := [];
            Message.data := [x01] |};
       OpAddMessage
         {| Message.channelId := channel_A; Message.hash := m_hash;
            Message.height := 1; Message.parents := [p_hash];
            Message.data := [x02] |};
       OpAddMessage
         {| Message.channelId := channel_B; Message.hash := n_hash;
            Message.height := 1; Message.parents := [p_hash];
            Message.data := [x03] |}].

(** A store of 901 messages in one channel, the hash of the [i]-th being
    [i] on two bytes, big-endian, and its payload being its hash. *)
Definition nth_hash (i : nat) : Buffer :=
  [uint8 (i / 256); uint8 (i mod 256)].

Definition nth_message (i : nat) : Message.t :=
  {| Message.channelId := test_channel;
     Message.hash := nth_hash i;
     Message.height := 0;
     Message.parents := [];
     Message.data := nth_hash i |}.

Definition big_store : Store :=
  run ((λ i, OpAddMessage (nth_message i)) <$> seq 0 901).

(** 901 distinct hashes, all stored: those of 1 to 900, then that of 0. *)
Definition big_request : list Buffer :=
  (nth_hash <$> seq 1 900) ++ [nth_hash 0%nat].

(** The row [addMessage] writes for a message whose parents can be
    encoded, and the store that inserting a list of messages, one after the
    other, leaves. *)
Definition row_of (message : Message.t) : Row.t :=
  {| Row.channel_id := Message.channelId message;
     Row.hash := Message.hash message;
     Row.parent_hashes := encode_elems (Message.parents message);
     Row.height := Message.height message;
     Row.blob := Message.data message |}.

Definition insert_all (ms : list Message.t) : Store :=
  run (OpAddMessage <$> ms).

(** A message named as a parent, then stored again without parents. *)
Definition overwritten_store : Store :=
  run [OpAddMessage
         {| Message.channelId := channel_A; Message.hash := p_hash;
            Message.height := 0; Message.parents := [];
            Message.data := [x01] |};
       OpAddMessage
         {| Message.channelId := channel_A; Message.hash := m_hash;
            Message.height := 1; Message.parents := [p_hash];
            Message.data := [x02] |};
       OpAddMessage
         {| Message.channelId := channel_A; Message.hash := m_hash;
            Message.height := 0; Message.parents := [];
            Message.data := [x02] |}].

(** The store of the leaves test before its last insertion: a, then c
    and b, both with parent a. *)
Definition leaves_store : Store :=
  snd (addMessage
         (snd (addMessage
                 (snd (addMessage empty_store (msg a_hash 0 [])))
                 (msg c_hash 1 [a_hash])))
         (msg b_hash 1 [a_hash])).

(** [p] and [m], which has parent [p], in channel [A]; [n], without
    parents, in channel [B]; and a message of channel [B] that names [p]
    and [n] as its parents. *)
Definition two_channel_store : Store :=
  run [OpAddMessage
         {| Message.channelId := channel_A; Message.hash := p_hash;
            Message.height := 0; Message.parents := [];
            Message.data := [x01] |};
       OpAddMessage
         {| Message.channelId := channel_A; Message.hash := m_hash;
            Message.height := 1; Message.parents := [p_hash];
            Message.data := [x02] |};
       OpAddMessage
         {| Message.channelId := channel_B; Message.hash := n_hash;
            Message.height := 0; Message.parents := [];
            Message.data := [x03] |}].

Definition q_message : Message.t :=
  {| Message.channelId := channel_B; Message.hash := [x71];
     Message.height := 1; Message.parents := [p_hash; n_hash];
     Message.data := [x04] |}.

(** ** Entities and the schema version *)

(** [entities(prefix TEXT, id TEXT, blob BLOB)], with the unique index
    [entity_id] on [(prefix, id)]. *)
Module Entity.
Record t := mk {
  prefix : string;
  id : string;
  blob : Buffer
}.
End Entity.

(** The whole database: the two message tables, the entities and
    [PRAGMA user_version]. *)
Record Database := mkDatabase {
  store : Store;
  entities : list Entity.t;
  user_version : Z
}.

Definition CURRENT_VERSION : Z := 2.

Definition getEntityCount (db : Database) : nat := length (entities db).

Definition storeEntity (db : Database) (prefix id : string) (blob : Buffer)
  : Database :=
  {| store := store db;
     entities :=
       filter (λ e, ¬ (Entity.prefix e = prefix ∧ Entity.id e = id))
              (entities db)
       ++ [{| Entity.prefix := prefix; Entity.id := id; Entity.blob := blob |}];
     user_version := user_version db |}.

Definition retrieveEntity (db : Database) (prefix id : string) : option Buffer :=
  Entity.blob <$>
    head (filter (λ e, Entity.prefix e = prefix ∧ Entity.id e = id)
                 (entities db)).

Definition removeEntity (db : Database) (prefix id : string) : Database :=
  {| store := store db;
     entities :=
       filter (λ e, ¬ (Entity.prefix e = prefix ∧ Entity.id e = id))
              (entities db);
     user_version := user_version db |}.

(** The statement has no [ORDER BY]; the engine reads the ids of the
    prefix through the index [entity_id], in its order. *)
Definition getEntityKeys (db : Database) (prefix : string) : list string :=
  Entity.id <$>
    order_by (λ e1 e2, String.compare (Entity.id e1) (Entity.id e2))
             (filter (λ e, Entity.prefix e = prefix) (entities db)).

(** [clear] of the class: the three [DELETE]s. *)
Definition clear_database (db : Database) : Database :=
  {| store := clear (store db);
     entities := [];
     user_version := user_version db |}.

(** [open], on the content [db] of the file it is given (a file that does
    not exist yet is [fresh_database]): [createTables] changes nothing
    where the tables exist, the content is cleared when its version is
    below [CURRENT_VERSION], and the version is set.  The connection is
    new, with no transaction open. *)
Definition open (db : Database) : Database :=
  let lastVersion := user_version db in
  let db := if lastVersion <? CURRENT_VERSION then clear_database db else db in
  {| store :=
       {| messages := messages (store db); parents := parents (store db);
          in_transaction := false |};
     entities := entities db;
     user_version := CURRENT_VERSION |}.

Definition fresh_database : Database :=
  {| store := empty_store; entities := []; user_version := 0 |}.

Inductive DbOp :=
| DbAddMessage (message : Message.t)
| DbRemoveChannelMessages (channelId : Buffer)
| DbStoreEntity (prefix id : string) (blob : Buffer)
| DbRemoveEntity (prefix id : string)
| DbClear.

Definition db_step (db : Database) (op : DbOp) : Database :=
  match op with
  | DbAddMessage message =>
      {| store := snd (addMessage (store db) message);
         entities := entities db; user_version := user_version db |}
  | DbRemoveChannelMessages channelId =>
      {| store := removeChannelMessages (store db) channelId;
         entities := entities db; user_version := user_version db |}
  | DbStoreEntity prefix id blob => storeEntity db prefix id blob
  | DbRemoveEntity prefix id => removeEntity db prefix id
  | DbClear => clear_database db
  end.

(** What a database opened on a new file can become. *)
Inductive db_reachable : Database → Prop :=
| db_reachable_open : db_reachable (open fresh_database)
| db_reachable_step db op : db_reachable db → db_reachable (db_step db op).

(** The rows a forward query selects, in order, before [LIMIT]. *)
Definition forward_rows (s : Store) (channelId : Buffer) (cursor : Cursor)
  : list Row.t :=
  order_by crdt_asc
    match cursor with
    | CursorHash hash => query_join s channelId hash false
    | CursorHeight height =>
        filter (λ r, Row.channel_id r = channelId ∧ Row.height r >= height)
               (messages s)
    end.

(** A database with two entities under one prefix and one under another. *)
Definition entities_database : Database :=
  db_step
    (db_step
       (db_step (open fresh_database) (DbStoreEntity "identity" "alice" [x01]))
       (DbStoreEntity "identity" "bob" [x02]))
    (DbStoreEntity "channel" "alice" [x03]).

(** The loop of [addMessage] over the parents, on the [parents] table. *)
Definition add_parents (channelId : Buffer) (table : list Parent.t)
    (parentHashes : list Buffer) : list Parent.t :=
  foldl (λ table parentHash,
           replace_into_parents
             {| Parent.channel_id := channelId; Parent.hash := parentHash |}
             table)
        table parentHashes.

(** The columns of the unique index of [entities]. *)
Definition entity_key (e : Entity.t) : string * string :=
  (Entity.prefix e, Entity.id e).

(** ** Lemmas on bytes and the codec *)

Lemma byte_to_nat_uint8 (n : nat) : (n <= 255)%nat → byte_to_nat (uint8 n) = n.
Proof.
  intros Hn. unfold uint8, byte_to_nat.
  assert (Hmod : (N.of_nat n mod 256 = N.of_nat n)%N) by (apply N.mod_small; lia).
  rewrite Hmod.
  destruct (Byte.of_N (N.of_nat n)) as [b|] eqn:E.
  - apply Byte.to_of_N in E. rewrite E. lia.
  - apply Byte.of_N_None_iff in E. lia.
Qed.

Lemma encoded_size_ok (list : list Buffer) :
  Forall (λ elem, (length elem <= 255)%nat) list ↔ ∃ n, encoded_size list = Ok n.
Proof.
  induction list as [|elem rest IH]; simpl.
  - split; [eauto | constructor].
  - destruct (Nat.ltb_spec 255 (length elem)) as [Hlt|Hle].
    + split; [intros H; inv H; lia | intros [? ?]; discriminate].
    + destruct (encoded_size rest) as [n|e].
      * split; [eauto | intros _; constructor; [done | apply IH; eauto]].
      * split; [intros H; inv H | intros [? ?]; discriminate].
        destruct IH as [IH _]. destruct IH as [? ?]; [done | discriminate].
Qed.

Lemma encoded_size_throw (list : list Buffer) :
  Exists (λ elem, (255 < length elem)%nat) list →
  encoded_size list = Throw InvalidHash.
Proof.
  induction 1 as [elem rest H | elem rest _ IH]; simpl.
  - destruct (Nat.ltb_spec 255 (length elem)); [done | lia].
  - rewrite IH. by destruct (255 <? length elem)%nat.
Qed.

(** More fuel than the buffer has bytes changes nothing. *)
Lemma decodeHashList_loop_fuel (fuel : nat) (data : Buffer) :
  (length data <= fuel)%nat →
  decodeHashList_loop fuel data = decodeHashList data.
Proof.
  unfold decodeHashList.
  remember (length data) as n eqn:Hn.
  revert fuel data Hn.
  induction (lt_wf n) as [n _ IH]; intros fuel data -> Hfuel.
  destruct data as [|len rest]; [by destruct fuel|].
  destruct fuel as [|fuel]; [simpl in Hfuel; lia|].
  simpl. f_equal.
  assert (Hdrop : (length (drop (byte_to_nat len) rest) <= length rest)%nat)
    by (rewrite length_drop; lia).
  rewrite (IH (length (drop (byte_to_nat len) rest)))
    by (simpl in *; first [lia | done]).
  symmetry. apply (IH (length (drop (byte_to_nat len) rest))); simpl in *; first [lia | done].
Qed.

Lemma decode_encode_elems (xs : list Buffer) :
  Forall (λ elem, (length elem <= 255)%nat) xs →
  decodeHashList (encode_elems xs) = xs.
Proof.
  induction 1 as [|elem rest Hlen _ IH]; [done|].
  unfold decodeHashList. simpl.
  rewrite (byte_to_nat_uint8 _ Hlen).
  rewrite take_app_length, drop_app_length.
  f_equal. rewrite decodeHashList_loop_fuel; [exact IH|].
  rewrite length_app. lia.
Qed.

(** ** The byte-wise order *)

Lemma byte_to_N_inj (x y : byte) : Byte.to_N x = Byte.to_N y → x = y.
Proof.
  intros H. pose proof (Byte.of_to_N x) as Hx. rewrite H, Byte.of_to_N in Hx.
  congruence.
Qed.

Lemma Buffer_compare_refl (a : Buffer) : Buffer_compare a a = Eq.
Proof. induction a as [|x a IH]; simpl; [done|]. by rewrite N.compare_refl. Qed.

Lemma Buffer_compare_eq (a b : Buffer) : Buffer_compare a b = Eq → a = b.
Proof.
  revert b. induction a as [|x a IH]; intros [|y b]; simpl; try done.
  destruct (N.compare_spec (Byte.to_N x) (Byte.to_N y)) as [E| |]; try done.
  intros H. f_equal; [by apply byte_to_N_inj | by apply IH].
Qed.

Lemma Buffer_compare_antisym (a b : Buffer) :
  Buffer_compare b a = CompOpp (Buffer_compare a b).
Proof.
  revert b. induction a as [|x a IH]; intros [|y b]; simpl; try done.
  rewrite (N.compare_antisym (Byte.to_N x) (Byte.to_N y)).
  destruct (Byte.to_N x ?= Byte.to_N y)%N; simpl; auto.
Qed.

Lemma Buffer_compare_trans (a b c : Buffer) :
  Buffer_compare a b = Lt → Buffer_compare b c = Lt → Buffer_compare a c = Lt.
Proof.
  revert b c. induction a as [|x a IH]; intros [|y b] [|z c]; simpl; try done.
  destruct (N.compare_spec (Byte.to_N x) (Byte.to_N y)),
           (N.compare_spec (Byte.to_N y) (Byte.to_N z)),
           (N.compare_spec (Byte.to_N x) (Byte.to_N z));
    try done; try lia; eauto.
Qed.

(** ** The order of the rows *)

Lemma crdt_desc_asc (r1 r2 : Row.t) : crdt_desc r1 r2 = crdt_asc r2 r1.
Proof. done. Qed.

Lemma crdt_asc_eq (r1 r2 : Row.t) :
  crdt_asc r1 r2 = Eq → Row.hash r1 = Row.hash r2.
Proof.
  unfold crdt_asc. destruct (Row.height r1 ?= Row.height r2); try done.
  apply Buffer_compare_eq.
Qed.

Lemma crdt_asc_antisym (r1 r2 : Row.t) :
  crdt_asc r2 r1 = CompOpp (crdt_asc r1 r2).
Proof.
  unfold crdt_asc. rewrite (Z.compare_antisym (Row.height r1) (Row.height r2)).
  destruct (Row.height r1 ?= Row.height r2); simpl; auto.
  apply Buffer_compare_antisym.
Qed.

#[global] Instance crdt_lt_trans : Transitive crdt_lt.
Proof.
  intros r1 r2 r3. unfold crdt_lt, crdt_asc.
  destruct (Z.compare_spec (Row.height r1) (Row.height r2)),
           (Z.compare_spec (Row.height r2) (Row.height r3)),
           (Z.compare_spec (Row.height r1) (Row.height r3));
    try done; try lia.
  apply Buffer_compare_trans.
Qed.

Lemma crdt_lt_irrefl (r : Row.t) : ¬ crdt_lt r r.
Proof.
  unfold crdt_lt, crdt_asc. rewrite Z.compare_refl, Buffer_compare_refl. done.
Qed.

Lemma crdt_lt_asym (r1 r2 : Row.t) : crdt_lt r1 r2 → crdt_lt r2 r1 → r1 = r2.
Proof.
  unfold crdt_lt. intros H1 H2. rewrite crdt_asc_antisym, H1 in H2. done.
Qed.

(** What [crdt_lt] says, column by column. *)
Lemma crdt_lt_spec (r1 r2 : Row.t) :
  crdt_lt r1 r2 ↔
  Row.height r1 < Row.height r2 ∨
  (Row.height r1 = Row.height r2 ∧
   Buffer_compare (Row.hash r1) (Row.hash r2) = Lt).
Proof.
  unfold crdt_lt, crdt_asc.
  destruct (Z.compare_spec (Row.height r1) (Row.height r2)); split;
    intros; try done; try lia; intuition; try lia.
Qed.

(** ** [order_by] sorts *)

Section order_by_facts.
Context {A : Type} (cmp : A → A → comparison).
Hypothesis cmp_total : ∀ x y, cmp x y = Gt → cmp y x ≠ Gt.

Lemma insert_ordered_Permutation (x : A) (l : list A) :
  insert_ordered cmp x l ≡ₚ x :: l.
Proof.
  induction l as [|y l IH]; simpl; [done|].
  destruct (cmp x y); try done.
  rewrite IH. apply Permutation_swap.
Qed.

Lemma order_by_Permutation (l : list A) : order_by cmp l ≡ₚ l.
Proof.
  induction l as [|x l IH]; simpl; [done|].
  rewrite insert_ordered_Permutation. by rewrite IH.
Qed.

Lemma order_by_length (l : list A) : length (order_by cmp l) = length l.
Proof. by rewrite order_by_Permutation. Qed.

Lemma list_elem_of_order_by (x : A) (l : list A) : x ∈ order_by cmp l ↔ x ∈ l.
Proof. by rewrite order_by_Permutation. Qed.

Lemma insert_ordered_Sorted (x : A) (l : list A) :
  Sorted (λ a b, cmp a b ≠ Gt) l →
  Sorted (λ a b, cmp a b ≠ Gt) (insert_ordered cmp x l).
Proof.
  induction 1 as [|y l Hl IH Hy]; simpl.
  - by repeat constructor.
  - destruct (cmp x y) eqn:E.
    + constructor; [by constructor|]. constructor. by rewrite E.
    + constructor; [by constructor|]. constructor. by rewrite E.
    + constructor; [done|].
      destruct Hy as [|z l Hz]; simpl.
      * constructor. by apply cmp_total.
      * destruct (cmp x z); constructor; auto.
Qed.

Lemma order_by_Sorted (l : list A) :
  Sorted (λ a b, cmp a b ≠ Gt) (order_by cmp l).
Proof.
  induction l as [|x l IH]; simpl; [constructor|].
  by apply insert_ordered_Sorted.
Qed.
End order_by_facts.

(** Rows with pairwise different hashes are put in strictly ascending
    order. *)
Lemma Sorted_crdt_lt (l : list Row.t) :
  NoDup (Row.hash <$> l) →
  Sorted (λ a b, crdt_asc a b ≠ Gt) l → StronglySorted crdt_lt l.
Proof.
  intros Hnd Hs. apply Sorted_StronglySorted; [apply _|].
  induction Hs as [|x l Hl IH Hx]; [constructor|].
  rewrite fmap_cons in Hnd. apply NoDup_cons in Hnd as [Hx' Hnd].
  constructor; [by apply IH|].
  destruct Hx as [|y l Hxy]; constructor.
  unfold crdt_lt. destruct (crdt_asc x y) eqn:E; try done.
  apply crdt_asc_eq in E. exfalso. apply Hx'. rewrite E, fmap_cons. left.
Qed.

Lemma order_by_crdt_asc_sorted (l : list Row.t) :
  NoDup (Row.hash <$> l) → StronglySorted crdt_lt (order_by crdt_asc l).
Proof.
  intros Hnd. apply Sorted_crdt_lt.
  - by rewrite order_by_Permutation.
  - apply order_by_Sorted. intros x y H. rewrite crdt_asc_antisym, H. done.
Qed.

(** A strictly ascending list is determined by its elements. *)
Lemma crdt_sorted_unique (l1 l2 : list Row.t) :
  StronglySorted crdt_lt l1 → StronglySorted crdt_lt l2 →
  (∀ r, r ∈ l1 ↔ r ∈ l2) → l1 = l2.
Proof.
  intros H1 H2 Hiff.
  assert (Hnd : ∀ l, StronglySorted crdt_lt l → NoDup l).
  { induction 1 as [|x l Hl IH Hx]; constructor; [|done].
    intros Hin. rewrite Forall_forall in Hx.
    by apply (crdt_lt_irrefl x), Hx. }
  apply (StronglySorted_unique_strong crdt_lt); try done.
  - intros ????. apply crdt_lt_asym.
  - apply NoDup_Permutation; auto.
Qed.

(** [ORDER BY ... DESC] is [ORDER BY ... ASC] read backwards. *)
Lemma order_by_crdt_desc (l : list Row.t) :
  NoDup (Row.hash <$> l) →
  order_by crdt_desc l = reverse (order_by crdt_asc l).
Proof.
  intros Hnd.
  rewrite <-(reverse_involutive (order_by crdt_desc l)). f_equal.
  apply crdt_sorted_unique.
  - apply Sorted_crdt_lt.
    + by rewrite reverse_Permutation, order_by_Permutation.
    + pose proof (order_by_Sorted crdt_desc) as Hs.
      eapply Sorted_reverse in Hs.
      * exact Hs.
      * intros x y H. rewrite crdt_desc_asc in *.
        rewrite crdt_asc_antisym, H. done.
  - by apply order_by_crdt_asc_sorted.
  - intros r. by rewrite elem_of_reverse, !list_elem_of_order_by.
Qed.

(** ** The primary key of [messages] *)

Lemma NoDup_fmap_filter {A B} (f : A → B) (P : A → Prop)
    `{∀ x, Decision (P x)} (l : list A) :
  NoDup (f <$> l) → NoDup (f <$> filter P l).
Proof.
  intros Hnd. eapply sublist_NoDup; [exact Hnd|].
  apply fmap_sublist, sublist_filter.
Qed.

Lemma addMessage_ok (s : Store) (message : Message.t) :
  Forall (λ p, (length p <= 255)%nat) (Message.parents message) →
  addMessage s message
  = (Ok tt,
     {| messages :=
          replace_into_messages
            {| Row.channel_id := Message.channelId message;
               Row.hash := Message.hash message;
               Row.parent_hashes := encode_elems (Message.parents message);
               Row.height := Message.height message;
               Row.blob := Message.data message |}
            (messages s);
        parents :=
          foldl (λ table parentHash,
                   replace_into_parents
                     {| Parent.channel_id := Message.channelId message;
                        Parent.hash := parentHash |} table)
                (parents s) (Message.parents message);
        in_transaction := false |}).
Proof.
  intros Hps. unfold addMessage, encodeHashList.
  by apply encoded_size_ok in Hps as [n ->].
Qed.

Lemma addMessage_throw (s : Store) (message : Message.t) :
  ¬ Forall (λ p, (length p <= 255)%nat) (Message.parents message) →
  addMessage s message = (Throw InvalidHash, begin_transaction s).
Proof.
  intros Hps. unfold addMessage, encodeHashList.
  rewrite encoded_size_throw; [done|].
  apply not_Forall_Exists in Hps; [|apply _].
  eapply Exists_impl; [exact Hps|]. simpl. lia.
Qed.

Lemma replace_into_messages_NoDup (row : Row.t) (table : list Row.t) :
  NoDup (Row.hash <$> table) →
  NoDup (Row.hash <$> replace_into_messages row table).
Proof.
  intros Hnd. unfold replace_into_messages. rewrite fmap_app.
  apply NoDup_app. split_and!.
  - by apply NoDup_fmap_filter.
  - intros h Hin. simpl. rewrite list_elem_of_singleton. intros ->.
    apply list_elem_of_fmap in Hin as (r & Hr & Hin).
    apply list_elem_of_filter in Hin as [Hne _]. congruence.
  - simpl. apply NoDup_singleton.
Qed.

Lemma step_messages_NoDup (s : Store) (op : Op) :
  NoDup (Row.hash <$> messages s) → NoDup (Row.hash <$> messages (step s op)).
Proof.
  intros Hnd. destruct op as [message|channelId|]; simpl.
  - unfold addMessage. destruct (encodeHashList _); simpl; [|done].
    by apply replace_into_messages_NoDup.
  - by apply NoDup_fmap_filter.
  - constructor.
Qed.

Lemma reachable_NoDup (s : Store) :
  reachable s → NoDup (Row.hash <$> messages s).
Proof.
  induction 1 as [|s op _ IH]; [constructor|]. by apply step_messages_NoDup.
Qed.

Lemma reachable_run (ops : list Op) : reachable (run ops).
Proof.
  unfold run. induction ops as [|op ops IH] using rev_ind; simpl.
  - constructor.
  - rewrite foldl_app. simpl. by constructor.
Qed.

Lemma channel_rows_NoDup (s : Store) (P : Row.t → Prop)
    `{∀ r, Decision (P r)} :
  reachable s → NoDup (Row.hash <$> filter P (messages s)).
Proof.
  intros Hs. by apply NoDup_fmap_filter, reachable_NoDup.
Qed.

Lemma hasMessage_false (s : Store) (channelId hash : Buffer) :
  hasMessage s channelId hash = false ↔
  ∀ r, r ∈ messages s → Row.channel_id r = channelId → Row.hash r ≠ hash.
Proof.
  unfold hasMessage. rewrite bool_decide_eq_false.
  split.
  - intros Hlen r Hin Hc Hh. apply Hlen.
    assert (Hr : r ∈ filter (λ r, Row.channel_id r = channelId ∧ Row.hash r = hash)
                        (messages s)) by (by apply list_elem_of_filter).
    destruct (filter _ (messages s)); [by apply elem_of_nil in Hr | done].
  - intros Hall Hlen. apply Hlen.
    destruct (filter _ (messages s)) as [|r l] eqn:E; [done|].
    assert (Hr : r ∈ filter (λ r, Row.channel_id r = channelId ∧ Row.hash r = hash)
                        (messages s)) by (rewrite E; left).
    apply list_elem_of_filter in Hr as [[Hc Hh] Hin]. by destruct (Hall r Hin Hc).
Qed.

Lemma hasMessage_true (s : Store) (channelId hash : Buffer) :
  hasMessage s channelId hash = true ↔
  ∃ r, r ∈ messages s ∧ Row.channel_id r = channelId ∧ Row.hash r = hash.
Proof.
  destruct (hasMessage s channelId hash) eqn:E.
  - split; [intros _|done].
    unfold hasMessage in E. apply bool_decide_eq_true in E.
    destruct (filter _ (messages s)) as [|r l] eqn:Ef; [done|].
    assert (Hr : r ∈ filter (λ r, Row.channel_id r = channelId ∧ Row.hash r = hash)
                        (messages s)) by (rewrite Ef; left).
    apply list_elem_of_filter in Hr as [[Hc Hh] Hin]. eauto.
  - split; [done|]. intros (r & Hin & Hc & Hh).
    rewrite hasMessage_false in E. by destruct (E r Hin Hc).
Qed.

(** ** The codec round trip *)

(** C7: for every sequence [xs] of hashes of at most 255 bytes each (empty
    elements and the empty sequence included), [encodeHashList] succeeds
    and [decodeHashList] of what it returns is [xs], element for element. *)
Theorem decodeHashList_encodeHashList (xs : list Buffer) :
  Forall (λ x, (length x <= 255)%nat) xs →
  ∃ data, encodeHashList xs = Ok data ∧ decodeHashList data = xs.
Proof.
  intros Hxs. exists (encode_elems xs). split.
  - unfold encodeHashList.
    apply encoded_size_ok in Hxs as [n ->]. done.
  - by apply decode_encode_elems.
Qed.

Lemma decodeHashList_encodeHashList_witness :
  ∃ data,
    encodeHashList [[x61; x62]; []; [x63]] = Ok data ∧
    decodeHashList data = [[x61; x62]; []; [x63]].
Proof.
  apply (decodeHashList_encodeHashList [[x61; x62]; []; [x63]]).
  repeat constructor; simpl; lia.
Defined.

(** ** A parent hash that cannot be encoded *)

(** C8: when the parents of a message contain a hash longer than 255
    bytes, [addMessage] throws the encoding error and both tables are what
    they were before the call. *)
Theorem addMessage_invalid_hash (s : Store) (message : Message.t) (p : Buffer) :
  p ∈ Message.parents message → (255 < length p)%nat →
  fst (addMessage s message) = Throw InvalidHash ∧
  messages (snd (addMessage s message)) = messages s ∧
  parents (snd (addMessage s message)) = parents s.
Proof.
  intros Hin Hlen. unfold addMessage, encodeHashList.
  rewrite encoded_size_throw; [done|].
  apply Exists_exists. eauto.
Qed.

Lemma addMessage_invalid_hash_witness :
  let long := replicate 256 x00 in
  let message :=
    {| Message.channelId := test_channel; Message.hash := [x65];
       Message.height := 3; Message.parents := [[d_hash]; long];
       Message.data := [] |} in
  fst (addMessage abcd_store message) = Throw InvalidHash ∧
  messages (snd (addMessage abcd_store message)) = messages abcd_store ∧
  parents (snd (addMessage abcd_store message)) = parents abcd_store.
Proof.
  intros long message.
  apply (addMessage_invalid_hash abcd_store message long).
  - right. left.
  - vm_compute. lia.
Defined.

(** ** Purging a channel *)

Lemma filter_filter_absorb {A} (P Q : A → Prop)
    `{∀ x, Decision (P x)} `{∀ x, Decision (Q x)} (l : list A) :
  (∀ x, P x → Q x) → filter P (filter Q l) = filter P l.
Proof.
  intros HPQ. rewrite list_filter_filter. apply list_filter_iff.
  intros x. split; [by intros [? _] | auto].
Qed.

Lemma filter_none {A} (P : A → Prop) `{∀ x, Decision (P x)} (l : list A) :
  (∀ x, x ∈ l → ¬ P x) → filter P l = [].
Proof.
  intros Hall. apply elem_of_nil_inv. intros x Hx.
  apply list_elem_of_filter in Hx as [HP Hx]. by apply (Hall x).
Qed.

Lemma filter_all {A} (P : A → Prop) `{∀ x, Decision (P x)} (l : list A) :
  (∀ x, x ∈ l → P x) → filter P l = l.
Proof.
  induction l as [|x l IH]; intros Hall; [done|].
  rewrite filter_cons_True by (apply Hall; left).
  f_equal. apply IH. intros y Hy. apply Hall. by right.
Qed.

(** C5: for distinct channels [A] and [B], [removeChannelMessages A],
    called while no transaction is open,
    leaves no row of [A] in either table, so that [getMessageCount A] is
    zero and [getLeafHashes A] is empty, while the rows of [B] in both
    tables, its message count, its leaf set and its lookups are what they
    were. *)
Theorem removeChannelMessages_frame (s : Store) (A B : Buffer) :
  A ≠ B → in_transaction s = false →
  let s' := removeChannelMessages s A in
  (∀ r, r ∈ messages s' → Row.channel_id r ≠ A) ∧
  (∀ p, p ∈ parents s' → Parent.channel_id p ≠ A) ∧
  getMessageCount s' A = 0%nat ∧
  getLeafHashes s' A = [] ∧
  filter (λ r, Row.channel_id r = B) (messages s')
    = filter (λ r, Row.channel_id r = B) (messages s) ∧
  filter (λ p, Parent.channel_id p = B) (parents s')
    = filter (λ p, Parent.channel_id p = B) (parents s) ∧
  getMessageCount s' B = getMessageCount s B ∧
  getLeafHashes s' B = getLeafHashes s B ∧
  (∀ h, getMessage s' B h = getMessage s B h) ∧
  (∀ h, hasMessage s' B h = hasMessage s B h).
Proof.
  intros HAB _ s'.
  assert (HmA : ∀ r, r ∈ messages s' → Row.channel_id r ≠ A).
  { intros r Hr. by apply list_elem_of_filter in Hr as [? _]. }
  assert (HpA : ∀ p, p ∈ parents s' → Parent.channel_id p ≠ A).
  { intros p Hp. by apply list_elem_of_filter in Hp as [? _]. }
  assert (HpB : filter (λ p, Parent.channel_id p = B) (parents s')
                = filter (λ p, Parent.channel_id p = B) (parents s)).
  { apply filter_filter_absorb. congruence. }
  split_and!; try done.
  - unfold getMessageCount. rewrite filter_none; [done|].
    intros r Hr Hc. by apply (HmA r).
  - unfold getLeafHashes. rewrite (filter_none _ (messages s')); [done|].
    intros r Hr [Hc _]. by apply (HmA r).
  - apply filter_filter_absorb. congruence.
  - unfold getMessageCount. f_equal. apply filter_filter_absorb. congruence.
  - unfold getLeafHashes. rewrite HpB. do 2 f_equal.
    apply (filter_filter_absorb _ (λ r, Row.channel_id r ≠ A)).
    intros r [-> _]. congruence.
  - intros h. unfold getMessage. do 2 f_equal.
    apply (filter_filter_absorb _ (λ r, Row.channel_id r ≠ A)).
    intros r [-> _]. congruence.
  - intros h. unfold hasMessage.
    replace (filter (λ r, Row.channel_id r = B ∧ Row.hash r = h) (messages s'))
      with (filter (λ r, Row.channel_id r = B ∧ Row.hash r = h) (messages s));
      [done|].
    symmetry. apply (filter_filter_absorb _ (λ r, Row.channel_id r ≠ A)).
    intros r [-> _]. congruence.
Qed.

Lemma removeChannelMessages_frame_witness :
  let s' := removeChannelMessages shared_parent_store channel_B in
  (∀ r, r ∈ messages s' → Row.channel_id r ≠ channel_B) ∧
  (∀ p, p ∈ parents s' → Parent.channel_id p ≠ channel_B) ∧
  getMessageCount s' channel_B = 0%nat ∧
  getLeafHashes s' channel_B = [] ∧
  filter (λ r, Row.channel_id r = channel_A) (messages s')
    = filter (λ r, Row.channel_id r = channel_A) (messages shared_parent_store) ∧
  filter (λ p, Parent.channel_id p = channel_A) (parents s')
    = filter (λ p, Parent.channel_id p = channel_A) (parents shared_parent_store) ∧
  getMessageCount s' channel_A = getMessageCount shared_parent_store channel_A ∧
  getLeafHashes s' channel_A = getLeafHashes shared_parent_store channel_A ∧
  (∀ h, getMessage s' channel_A h = getMessage shared_parent_store channel_A h) ∧
  (∀ h, hasMessage s' channel_A h = hasMessage shared_parent_store channel_A h).
Proof.
  apply (removeChannelMessages_frame shared_parent_store channel_B channel_A).
  - vm_compute. discriminate.
  - reflexivity.
Defined.

(** ** Windows of the CRDT order *)

Lemma limit_offset_nonneg {A} (limit offset : Z) (rows : list A) :
  0 ≤ limit →
  limit_offset limit offset rows
    = take (Z.to_nat limit) (drop (Z.to_nat offset) rows).
Proof.
  intros Hl. unfold limit_offset.
  destruct (Z.ltb_spec limit 0); [lia | done].
Qed.

(** The rows of a channel in ascending order. *)
Lemma channel_rows_sorted (s : Store) (channelId : Buffer) :
  reachable s →
  StronglySorted crdt_lt
    (order_by crdt_asc (filter (λ r, Row.channel_id r = channelId) (messages s))).
Proof. intros Hs. by apply order_by_crdt_asc_sorted, channel_rows_NoDup. Qed.

Lemma channel_rows_same (s s' : Store) (channelId : Buffer) :
  reachable s → reachable s' →
  (∀ r, r ∈ messages s' ↔ r ∈ messages s) →
  order_by crdt_asc (filter (λ r, Row.channel_id r = channelId) (messages s'))
  = order_by crdt_asc (filter (λ r, Row.channel_id r = channelId) (messages s)).
Proof.
  intros Hs Hs' Hsame.
  apply crdt_sorted_unique; try by apply channel_rows_sorted.
  intros r. rewrite !list_elem_of_order_by, !list_elem_of_filter, Hsame. done.
Qed.

(** Messages with pairwise different hashes, inserted in any order, leave
    the same rows, and so the same readings. *)
Lemma insert_all_messages (ms : list Message.t) :
  NoDup (Message.hash <$> ms) →
  Forall (λ m, Forall (λ p, (length p <= 255)%nat) (Message.parents m)) ms →
  messages (insert_all ms) = row_of <$> ms.
Proof.
  unfold insert_all, run.
  induction ms as [|m ms IH] using rev_ind; intros Hnd Hok; [done|].
  rewrite fmap_app in Hnd. apply NoDup_app in Hnd as (Hnd & Hfresh & _).
  apply Forall_app in Hok as [Hok Hm]. inv Hm.
  rewrite !fmap_app, foldl_app. simpl.
  rewrite addMessage_ok by done. simpl. rewrite IH by done.
  unfold replace_into_messages. f_equal.
  apply filter_all.
  intros r Hr. apply list_elem_of_fmap in Hr as (m' & -> & Hm'). simpl.
  intros Heq. apply (Hfresh (Message.hash m')).
  - apply list_elem_of_fmap. eauto.
  - rewrite Heq. simpl. left.
Qed.

Lemma getHashesAtOffset_insertion_order (ms ms' : list Message.t)
    (channelId : Buffer) (offset limit : Z) :
  ms ≡ₚ ms' →
  NoDup (Message.hash <$> ms) →
  Forall (λ m, Forall (λ p, (length p <= 255)%nat) (Message.parents m)) ms →
  getHashesAtOffset (insert_all ms') channelId offset limit
    = getHashesAtOffset (insert_all ms) channelId offset limit ∧
  getReverseHashesAtOffset (insert_all ms') channelId offset limit
    = getReverseHashesAtOffset (insert_all ms) channelId offset limit.
Proof.
  intros Hperm Hnd Hok.
  assert (Hsame : ∀ r, r ∈ messages (insert_all ms')
                       ↔ r ∈ messages (insert_all ms)).
  { intros r. rewrite !insert_all_messages; try done.
    - by rewrite Hperm.
    - by rewrite <-Hperm.
    - by rewrite <-Hperm. }
  unfold getHashesAtOffset, getReverseHashesAtOffset.
  rewrite !order_by_crdt_desc by apply channel_rows_NoDup, reachable_run.
  by rewrite (channel_rows_same (insert_all ms) (insert_all ms'))
    by first [apply reachable_run | done].
Qed.

(** [ORDER BY] on the rows of messages is [ORDER BY] on the messages. *)
Lemma order_by_fmap {A B} (cmp : B → B → comparison) (f : A → B) (l : list A) :
  order_by cmp (f <$> l) = f <$> order_by (λ a b, cmp (f a) (f b)) l.
Proof.
  induction l as [|x l IH]; [done|]. csimpl. rewrite IH.
  generalize (order_by (λ a b, cmp (f a) (f b)) l). intros l'.
  induction l' as [|y l' IH']; [done|]. csimpl.
  destruct (cmp (f x) (f y)); csimpl; try done. by rewrite IH'.
Qed.

Lemma filter_fmap {A B} (f : A → B) (P : B → Prop) `{∀ y, Decision (P y)}
    (l : list A) :
  filter P (f <$> l) = f <$> filter (λ x, P (f x)) l.
Proof.
  induction l as [|x l IH]; [done|]. csimpl. rewrite !filter_cons.
  destruct (decide (P (f x))); csimpl; by rewrite IH.
Qed.

Lemma StronglySorted_fmap_inv {A B} (R : B → B → Prop) (R' : A → A → Prop)
    (f : A → B) (l : list A) :
  (∀ a b, R (f a) (f b) → R' a b) →
  StronglySorted R (f <$> l) → StronglySorted R' l.
Proof.
  intros HR. induction l as [|x l IH]; csimpl; intros Hl; [constructor|].
  apply StronglySorted_cons in Hl as [Hx Hl]. constructor; [by apply IH|].
  apply (proj1 (Forall_fmap _ _ _)) in Hx.
  eapply Forall_impl; [exact Hx|]. intros b. apply HR.
Qed.

Lemma message_lt_row_of (m1 m2 : Message.t) :
  message_lt m1 m2 ↔ crdt_lt (row_of m1) (row_of m2).
Proof. by rewrite crdt_lt_spec. Qed.

Lemma channel_rows_insert_all (ms : list Message.t) (channelId : Buffer) :
  NoDup (Message.hash <$> ms) →
  Forall (λ m, Forall (λ p, (length p <= 255)%nat) (Message.parents m)) ms →
  order_by crdt_asc
    (filter (λ r, Row.channel_id r = channelId) (messages (insert_all ms)))
  = row_of <$>
      order_by (λ a b, crdt_asc (row_of a) (row_of b))
               (filter (λ m, Message.channelId m = channelId) ms).
Proof.
  intros Hnd Hok. rewrite insert_all_messages by done.
  by rewrite filter_fmap, order_by_fmap.
Qed.

(** C9: for messages [ms] with pairwise different hashes, inserted one
    after the other into the empty store, and an offset and a limit from 0
    to [MAX_SAFE_INTEGER]: the messages [L] of a channel, put in strictly
    ascending order of (height, hash) with hashes compared byte by byte,
    are such that [getHashesAtOffset] is the window [offset, offset+limit)
    of the hashes of [L] and [getReverseHashesAtOffset] the same window of
    [L] reversed; an offset at or beyond the end gives the empty list; the
    same messages inserted in any other order give the same answers; after
    inserting a(h=0), c(h=1), b(h=1), d(h=2) the forward reading from
    offset 0 is a, b, c, d; and after inserting a(h=1), d(h=0) it is
    d, a: the height comes before the hash. *)
Theorem getHashesAtOffset_crdt_order (ms : list Message.t) (channelId : Buffer)
    (offset limit : Z) :
  NoDup (Message.hash <$> ms) →
  Forall (λ m, Forall (λ p, (length p <= 255)%nat) (Message.parents m)) ms →
  0 ≤ offset ≤ MAX_SAFE_INTEGER → 0 ≤ limit ≤ MAX_SAFE_INTEGER →
  ∃ L : list Message.t,
    L ≡ₚ filter (λ m, Message.channelId m = channelId) ms ∧
    StronglySorted message_lt L ∧
    getHashesAtOffset (insert_all ms) channelId offset limit
      = Message.hash <$> take (Z.to_nat limit) (drop (Z.to_nat offset) L) ∧
    getReverseHashesAtOffset (insert_all ms) channelId offset limit
      = Message.hash <$>
          take (Z.to_nat limit) (drop (Z.to_nat offset) (reverse L)) ∧
    (Z.of_nat (length L) ≤ offset →
     getHashesAtOffset (insert_all ms) channelId offset limit = [] ∧
     getReverseHashesAtOffset (insert_all ms) channelId offset limit = []) ∧
    (∀ ms', ms' ≡ₚ ms →
     getHashesAtOffset (insert_all ms') channelId offset limit
       = getHashesAtOffset (insert_all ms) channelId offset limit ∧
     getReverseHashesAtOffset (insert_all ms') channelId offset limit
       = getReverseHashesAtOffset (insert_all ms) channelId offset limit) ∧
    getHashesAtOffset
        (insert_all [msg a_hash 0 []; msg c_hash 1 []; msg b_hash 1 [];
                     msg d_hash 2 []])
        test_channel 0 4
      = [[a_hash]; [b_hash]; [c_hash]; [d_hash]] ∧
    getHashesAtOffset (insert_all [msg a_hash 1 []; msg d_hash 0 []])
                      test_channel 0 2
      = [[d_hash]; [a_hash]].
Proof.
  intros Hnd Hok [Hoff _] [Hlim _].
  set (L := order_by (λ a b, crdt_asc (row_of a) (row_of b))
                     (filter (λ m, Message.channelId m = channelId) ms)).
  assert (Hrows : order_by crdt_asc
             (filter (λ r, Row.channel_id r = channelId)
                     (messages (insert_all ms)))
           = row_of <$> L) by by apply channel_rows_insert_all.
  assert (Hfwd : getHashesAtOffset (insert_all ms) channelId offset limit
      = Message.hash <$> take (Z.to_nat limit) (drop (Z.to_nat offset) L)).
  { unfold getHashesAtOffset. rewrite limit_offset_nonneg by done.
    rewrite Hrows, <-fmap_drop, <-fmap_take, <-list_fmap_compose. done. }
  assert (Hbwd : getReverseHashesAtOffset (insert_all ms) channelId offset limit
      = Message.hash <$>
          take (Z.to_nat limit) (drop (Z.to_nat offset) (reverse L))).
  { unfold getReverseHashesAtOffset. rewrite limit_offset_nonneg by done.
    rewrite order_by_crdt_desc by apply channel_rows_NoDup, reachable_run.
    rewrite Hrows, <-fmap_reverse, <-fmap_drop, <-fmap_take,
      <-list_fmap_compose. done. }
  exists L. split_and!; try done.
  - apply order_by_Permutation.
  - apply (StronglySorted_fmap_inv crdt_lt message_lt row_of);
      [intros m1 m2; apply message_lt_row_of|].
    rewrite <-Hrows.
    apply channel_rows_sorted, reachable_run.
  - intros Hend. rewrite Hfwd, Hbwd.
    rewrite !drop_ge by (rewrite ?length_reverse; lia).
    by rewrite take_nil.
  - intros ms' Hperm. apply getHashesAtOffset_insertion_order; [|done..].
    by symmetry.
Qed.

Lemma getHashesAtOffset_crdt_order_witness :
  let ms := [msg a_hash 0 []; msg c_hash 1 []; msg b_hash 1 [];
             msg d_hash 2 []] in
  ∃ L : list Message.t,
    L ≡ₚ filter (λ m, Message.channelId m = test_channel) ms ∧
    StronglySorted message_lt L ∧
    getHashesAtOffset (insert_all ms) test_channel 1 2
      = Message.hash <$> take (Z.to_nat 2) (drop (Z.to_nat 1) L) ∧
    getReverseHashesAtOffset (insert_all ms) test_channel 1 2
      = Message.hash <$> take (Z.to_nat 2) (drop (Z.to_nat 1) (reverse L)) ∧
    (Z.of_nat (length L) ≤ 1 →
     getHashesAtOffset (insert_all ms) test_channel 1 2 = [] ∧
     getReverseHashesAtOffset (insert_all ms) test_channel 1 2 = []) ∧
    (∀ ms', ms' ≡ₚ ms →
     getHashesAtOffset (insert_all ms') test_channel 1 2
       = getHashesAtOffset (insert_all ms) test_channel 1 2 ∧
     getReverseHashesAtOffset (insert_all ms') test_channel 1 2
       = getReverseHashesAtOffset (insert_all ms) test_channel 1 2) ∧
    getHashesAtOffset
        (insert_all [msg a_hash 0 []; msg c_hash 1 []; msg b_hash 1 [];
                     msg d_hash 2 []])
        test_channel 0 4
      = [[a_hash]; [b_hash]; [c_hash]; [d_hash]] ∧
    getHashesAtOffset (insert_all [msg a_hash 1 []; msg d_hash 0 []])
                      test_channel 0 2
      = [[d_hash]; [a_hash]].
Proof.
  intros ms.
  apply (getHashesAtOffset_crdt_order ms test_channel 1 2).
  - apply (bool_decide_unpack _). vm_compute. exact I.
  - repeat constructor.
  - split; vm_compute; discriminate.
  - split; vm_compute; discriminate.
Defined.

(** ** The rows a query reads *)

Lemma limit_offset_nil {A} (limit offset : Z) :
  limit_offset limit offset ([] : list A) = [].
Proof.
  unfold limit_offset. rewrite drop_nil, take_nil. by destruct (limit <? 0).
Qed.

Lemma limit_offset_succ {A} (limit : Z) (rows : list A) :
  0 ≤ limit →
  limit_offset (limit + 1) 0 rows = take (S (Z.to_nat limit)) rows.
Proof.
  intros Hl. rewrite limit_offset_nonneg by lia.
  rewrite drop_0. f_equal. lia.
Qed.

Lemma bind_if_filter {A} (Q : A → Prop) `{∀ x, Decision (Q x)} (l : list A) :
  (x ← l; if decide (Q x) then [x] else []) = filter Q l.
Proof.
  induction l as [|x l IH]; [done|].
  rewrite bind_cons, filter_cons, IH. by destruct (decide (Q x)).
Qed.

(** The primary key leaves at most one [original] for a row to pair with. *)
Lemma query_join_inner (channelId hash : Buffer) (isBackward : bool)
    (m : Row.t) (l : list Row.t) :
  NoDup (Row.hash <$> l) →
  (original ← l;
   if decide (join_where channelId hash isBackward m original) then [m] else [])
  = if decide (Exists (join_where channelId hash isBackward m) l)
    then [m] else [].
Proof.
  induction l as [|o l IH]; intros Hnd.
  - done.
  - rewrite fmap_cons in Hnd. apply NoDup_cons in Hnd as [Ho Hnd].
    rewrite bind_cons, IH by done.
    destruct (decide (join_where channelId hash isBackward m o)) as [Hjo|Hjo].
    + rewrite (decide_True (P := Exists _ (o :: l))) by by left.
      rewrite decide_False; [done|].
      intros Hex. apply Exists_exists in Hex as (o' & Hin & Hj').
      apply Ho. apply list_elem_of_fmap. exists o'. split; [|done].
      destruct Hjo as (_ & _ & -> & _). by destruct Hj' as (_ & _ & -> & _).
    + simpl.
      destruct (decide (Exists _ l)) as [Hex|Hex].
      * rewrite decide_True; [done | by right].
      * rewrite decide_False; [done|]. intros H'. by inv H'.
Qed.

Lemma query_join_filter (s : Store) (channelId hash : Buffer) (isBackward : bool) :
  NoDup (Row.hash <$> messages s) →
  query_join s channelId hash isBackward
  = filter (λ m, Exists (join_where channelId hash isBackward m) (messages s))
           (messages s).
Proof.
  intros Hnd. unfold query_join. rewrite <-bind_if_filter.
  apply list_bind_ext; [|done].
  intros m. by apply query_join_inner.
Qed.

Lemma query_join_missing (s : Store) (channelId hash : Buffer) (isBackward : bool) :
  hasMessage s channelId hash = false →
  query_join s channelId hash isBackward = [].
Proof.
  rewrite hasMessage_false. intros Hmiss.
  apply elem_of_nil_inv. intros x Hx.
  apply list_elem_of_bind in Hx as (m & Hx & Hm).
  apply list_elem_of_bind in Hx as (o & Hx & Ho).
  case_decide as Hj; [|by apply elem_of_nil in Hx].
  destruct Hj as (Hc & Hoc & Hh & _).
  apply (Hmiss o Ho); congruence.
Qed.

(** ** A query whose anchor is not in the channel *)

(** C3, as the code has it: for every channel and every limit up to
    [MAX_SAFE_INTEGER], a query
    anchored at a hash that is not stored in the channel returns an empty
    page and a null [backwardHash] in both directions; [forwardHash] is
    null for a forward query and the anchor hash of the cursor for a
    backward one. *)
Theorem query_missing_anchor (s : Store) (channelId hash : Buffer) (limit : Z) :
  limit ≤ MAX_SAFE_INTEGER →
  hasMessage s channelId hash = false →
  query s channelId (CursorHash hash) false limit
    = Ok {| abbreviatedMessages := []; backwardHash := None;
            forwardHash := None |} ∧
  query s channelId (CursorHash hash) true limit
    = Ok {| abbreviatedMessages := []; backwardHash := None;
            forwardHash := Some hash |}.
Proof.
  intros _ Hmiss. unfold query, query_rows.
  rewrite !query_join_missing by done. simpl.
  rewrite limit_offset_nil. simpl.
  by destruct (Z.of_nat 0 >? Z.max 0 limit).
Qed.

Lemma query_missing_anchor_witness :
  query abcd_store test_channel (CursorHash [x78]) false 2
    = Ok {| abbreviatedMessages := []; backwardHash := None;
            forwardHash := None |} ∧
  query abcd_store test_channel (CursorHash [x78]) true 2
    = Ok {| abbreviatedMessages := []; backwardHash := None;
            forwardHash := Some [x78] |}.
Proof.
  apply (query_missing_anchor abcd_store test_channel [x78] 2).
  - vm_compute. discriminate.
  - vm_compute. reflexivity.
Defined.

(** The claim as it was stated does not hold for a backward query: the
    hash [x] is not stored, and [forwardHash] is [x], not null. *)
Lemma query_missing_anchor_backward_not_null :
  hasMessage abcd_store test_channel [x78] = false ∧
  ¬ ∃ r, query abcd_store test_channel (CursorHash [x78]) true 2 = Ok r ∧
         abbreviatedMessages r = [] ∧
         backwardHash r = None ∧ forwardHash r = None.
Proof.
  split; [by vm_compute|].
  intros (r & Hq & _ & _ & Hf). vm_compute in Hq.
  injection Hq as <-. discriminate Hf.
Qed.

(** ** Forward queries *)

(** What [query] makes of the rows of a forward query, [L] being all the
    rows the [WHERE] clause selects, in order, before [LIMIT]. *)
Lemma query_forward_of_rows (s : Store) (channelId : Buffer) (cursor : Cursor)
    (limit : Z) (L : list Row.t) :
  query_rows s channelId cursor false (Z.max 0 limit)
    = Ok (take (S (Z.to_nat (Z.max 0 limit))) L) →
  query s channelId cursor false limit
  = Ok {| abbreviatedMessages := abbreviate <$> take (Z.to_nat (Z.max 0 limit)) L;
          backwardHash := Row.hash <$> head L;
          forwardHash := Row.hash <$> L !! Z.to_nat (Z.max 0 limit) |}.
Proof.
  intros Hrows. unfold query. rewrite Hrows.
  set (n := Z.to_nat (Z.max 0 limit)).
  assert (Hhead : head (take (S n) L) = head L).
  { rewrite !head_lookup. apply lookup_take_lt. lia. }
  rewrite Hhead, length_fmap, length_take.
  destruct (Z.gtb_spec (Z.of_nat (S n `min` length L)) (Z.max 0 limit)) as [Hgt|Hle].
  - assert (Hn : (n < length L)%nat) by lia.
    do 2 f_equal.
    + rewrite <-fmap_take, take_take. do 2 f_equal. lia.
    + f_equal. rewrite last_lookup, length_take.
      replace (pred (S n `min` length L)) with n by lia.
      apply lookup_take_lt. lia.
  - assert (Hn : (length L <= n)%nat) by lia.
    rewrite !take_ge by lia.
    by rewrite (lookup_ge_None_2 L n).
Qed.

Lemma join_where_forward_selected (s : Store) (channelId hash : Buffer)
    (m : Row.t) :
  Exists (join_where channelId hash false m) (messages s) ↔
  Row.channel_id m = channelId ∧ forward_selected s channelId (CursorHash hash) m.
Proof.
  rewrite Exists_exists. unfold join_where, forward_selected. split.
  - intros (o & Ho & Hc & Hoc & Hh & Hcond).
    split; [done|]. exists o. split_and!; [done | congruence | done | done].
  - intros (Hc & o & Ho & Hoc & Hh & Hcond).
    exists o. split_and!; [done | done | congruence | done | done].
Qed.

(** C6: in every reachable store and for every limit up to
    [MAX_SAFE_INTEGER], clamped at zero to [n], the rows [L] of the channel
    that a forward query selects (those at or after the anchor row for a
    hash cursor, those at or above the height for a height cursor), put in
    strictly ascending (height, hash) order, are such that the page holds,
    for each of the first [n] rows of [L] in that order, the hash of the
    row and its decoded parents, [backwardHash] is the hash of the first
    row of [L] or null when [L] is empty, and [forwardHash] is the hash of
    the row of [L] at index [n], the one fetched and dropped, or null when
    [L] has no more than [n] rows; and over a(h=0), c(h=1), b(h=1), d(h=2)
    the forward query by height 1 with limit 2 returns b, c with
    [backwardHash] b and [forwardHash] d. *)
Theorem query_forward_page (s : Store) (channelId : Buffer) (cursor : Cursor)
    (limit : Z) :
  reachable s → limit ≤ MAX_SAFE_INTEGER →
  (∃ L : list Row.t,
    StronglySorted crdt_lt L ∧
    (∀ m, m ∈ L ↔
          m ∈ messages s ∧ Row.channel_id m = channelId ∧
          forward_selected s channelId cursor m) ∧
    query s channelId cursor false limit
    = Ok {| abbreviatedMessages :=
              (λ m, {| Abbreviated.hash := Row.hash m;
                       Abbreviated.parents :=
                         decodeHashList (Row.parent_hashes m) |})
                <$> take (Z.to_nat (Z.max 0 limit)) L;
            backwardHash := Row.hash <$> head L;
            forwardHash := Row.hash <$> L !! Z.to_nat (Z.max 0 limit) |}) ∧
  query abcd_store test_channel (CursorHeight 1) false 2
  = Ok {| abbreviatedMessages :=
            [{| Abbreviated.hash := [b_hash]; Abbreviated.parents := [] |};
             {| Abbreviated.hash := [c_hash]; Abbreviated.parents := [] |}];
          backwardHash := Some [b_hash];
          forwardHash := Some [d_hash] |}.
Proof.
  intros Hs _. split; [|reflexivity].
  pose proof (reachable_NoDup s Hs) as Hnd.
  destruct cursor as [hash|height].
  - exists (order_by crdt_asc (query_join s channelId hash false)).
    rewrite query_join_filter by done. split_and!.
    + by apply order_by_crdt_asc_sorted, NoDup_fmap_filter.
    + intros m.
      rewrite list_elem_of_order_by, list_elem_of_filter,
        join_where_forward_selected. tauto.
    + apply query_forward_of_rows. unfold query_rows.
      rewrite query_join_filter by done.
      by rewrite limit_offset_succ by lia.
  - exists (order_by crdt_asc
              (filter (λ r, Row.channel_id r = channelId ∧ Row.height r >= height)
                      (messages s))).
    split_and!.
    + by apply order_by_crdt_asc_sorted, NoDup_fmap_filter.
    + intros m. rewrite list_elem_of_order_by, list_elem_of_filter. simpl. tauto.
    + apply query_forward_of_rows. unfold query_rows.
      by rewrite limit_offset_succ by lia.
Qed.

Lemma query_forward_page_witness :
  (∃ L : list Row.t,
    StronglySorted crdt_lt L ∧
    (∀ m, m ∈ L ↔
          m ∈ messages abcd_store ∧ Row.channel_id m = test_channel ∧
          forward_selected abcd_store test_channel (CursorHash [b_hash]) m) ∧
    query abcd_store test_channel (CursorHash [b_hash]) false 2
    = Ok {| abbreviatedMessages :=
              (λ m, {| Abbreviated.hash := Row.hash m;
                       Abbreviated.parents :=
                         decodeHashList (Row.parent_hashes m) |})
                <$> take (Z.to_nat (Z.max 0 2)) L;
            backwardHash := Row.hash <$> head L;
            forwardHash := Row.hash <$> L !! Z.to_nat (Z.max 0 2) |}) ∧
  query abcd_store test_channel (CursorHeight 1) false 2
  = Ok {| abbreviatedMessages :=
            [{| Abbreviated.hash := [b_hash]; Abbreviated.parents := [] |};
             {| Abbreviated.hash := [c_hash]; Abbreviated.parents := [] |}];
          backwardHash := Some [b_hash];
          forwardHash := Some [d_hash] |}.
Proof.
  apply (query_forward_page abcd_store test_channel (CursorHash [b_hash]) 2).
  - apply reachable_run.
  - vm_compute. discriminate.
Defined.

(** The forward queries of the test suite. *)
Example query_forward_by_height :
  query abcd_store test_channel (CursorHeight 1) false 2
  = Ok {| abbreviatedMessages :=
            [{| Abbreviated.hash := [b_hash]; Abbreviated.parents := [] |};
             {| Abbreviated.hash := [c_hash]; Abbreviated.parents := [] |}];
          backwardHash := Some [b_hash];
          forwardHash := Some [d_hash] |}.
Proof. reflexivity. Qed.

Example query_forward_by_hash :
  query abcd_store test_channel (CursorHash [b_hash]) false 2
  = Ok {| abbreviatedMessages :=
            [{| Abbreviated.hash := [b_hash]; Abbreviated.parents := [] |};
             {| Abbreviated.hash := [c_hash]; Abbreviated.parents := [] |}];
          backwardHash := Some [b_hash];
          forwardHash := Some [d_hash] |}.
Proof. reflexivity. Qed.

Example query_forward_from_last :
  query abcd_store test_channel (CursorHash [d_hash]) false 2
  = Ok {| abbreviatedMessages :=
            [{| Abbreviated.hash := [d_hash]; Abbreviated.parents := [] |}];
          backwardHash := Some [d_hash];
          forwardHash := None |}.
Proof. reflexivity. Qed.

(** ** The batched lookup *)

(** The batching loop does not depend on fuel beyond what it needs. *)
Lemma getMessages_rows_fuel (fuel fuel' : nat) (s : Store) (channelId : Buffer)
    (hashes : list Buffer) (offset : nat) (rows : list Buffer) :
  (length hashes <= offset + fuel)%nat →
  (length hashes <= offset + fuel')%nat →
  getMessages_rows fuel s channelId hashes offset rows
  = getMessages_rows fuel' s channelId hashes offset rows.
Proof.
  revert fuel' offset rows.
  induction fuel as [|fuel IH]; intros [|fuel'] offset rows H1 H2; simpl; try done.
  - destruct (Nat.ltb_spec offset (length hashes)); [lia | done].
  - destruct (Nat.ltb_spec offset (length hashes)); [lia | done].
  - destruct (Nat.ltb_spec offset (length hashes)); [|done].
    apply IH; unfold MAX_VARIABLE_COUNT; lia.
Qed.

(** One statement returns at most one row per position of its hash list
    that holds a stored hash. *)
Lemma select_blobs_length (s : Store) (channelId : Buffer)
    (partialHashes : list Buffer) :
  NoDup (Row.hash <$> messages s) →
  (length (select_blobs s channelId partialHashes)
   <= length (filter (λ h, hasMessage s channelId h = true) partialHashes))%nat.
Proof.
  intros Hnd. unfold select_blobs.
  rewrite length_fmap, order_by_length.
  rewrite <-(length_fmap Row.hash).
  apply submseteq_length, NoDup_submseteq.
  - by apply NoDup_fmap_filter.
  - intros h Hh. apply list_elem_of_fmap in Hh as (r & -> & Hr).
    apply list_elem_of_filter in Hr as [[Hc Hin] Hr].
    apply list_elem_of_filter. split; [|done].
    apply hasMessage_true. eauto.
Qed.

Lemma getMessages_rows_length (fuel : nat) (s : Store) (channelId : Buffer)
    (hashes : list Buffer) (offset : nat) (rows : list Buffer) :
  NoDup (Row.hash <$> messages s) →
  (length (getMessages_rows fuel s channelId hashes offset rows)
   <= length rows
      + length (filter (λ h, hasMessage s channelId h = true)
                       (drop offset hashes)))%nat.
Proof.
  intros Hnd. revert offset rows.
  induction fuel as [|fuel IH]; intros offset rows; simpl; [lia|].
  destruct (offset <? length hashes)%nat; [|lia].
  etrans; [apply IH|].
  rewrite length_app.
  rewrite <-(take_drop MAX_VARIABLE_COUNT (drop offset hashes)) at 2.
  rewrite filter_app, length_app, drop_drop.
  pose proof (select_blobs_length s channelId
                (take MAX_VARIABLE_COUNT (drop offset hashes)) Hnd).
  lia.
Qed.

Lemma getMessages_assign_short (rows : list Buffer) (i : nat) (order : list nat)
    (result : list (option Buffer)) :
  (i <= length rows)%nat → (length rows < i + length order)%nat →
  getMessages_assign rows i order result = Throw TypeError.
Proof.
  revert i result.
  induction order as [|target order IH]; intros i result Hi Hlen; simpl in *.
  - lia.
  - destruct (rows !! i) as [blob|] eqn:E; [|done].
    apply lookup_lt_Some in E. apply IH; lia.
Qed.

(** C10: in every reachable store, when the list given to [getMessages]
    contains a hash that is not stored in the channel, the call throws (a
    read of [blob] on an undefined row): it returns no list, with or
    without a placeholder for the missing entry. *)
Theorem getMessages_missing_hash (s : Store) (channelId : Buffer)
    (hashes : list Buffer) (h : Buffer) :
  reachable s → h ∈ hashes → hasMessage s channelId h = false →
  getMessages s channelId hashes = Throw TypeError.
Proof.
  intros Hs Hin Hmiss. unfold getMessages.
  apply getMessages_assign_short; [lia|].
  rewrite length_fmap, order_by_length, length_imap. simpl.
  pose proof (getMessages_rows_length (length hashes) s channelId hashes 0 []
                (reachable_NoDup s Hs)) as Hrows.
  rewrite drop_0 in Hrows. simpl in Hrows.
  assert (length (filter (λ h, hasMessage s channelId h = true) hashes)
          < length hashes)%nat; [|lia].
  apply (length_filter_lt _ _ h); [done|]. by rewrite Hmiss.
Qed.

Lemma getMessages_missing_hash_witness :
  getMessages abcd_store test_channel [[a_hash]; [x78]; [b_hash]]
  = Throw TypeError.
Proof.
  apply (getMessages_missing_hash abcd_store test_channel
           [[a_hash]; [x78]; [b_hash]] [x78]).
  - apply reachable_run.
  - right. left.
  - vm_compute. reflexivity.
Defined.

#[global] Instance Buffer_lt_trans : Transitive Buffer_lt.
Proof. intros a b c. apply Buffer_compare_trans. Qed.

Lemma Sorted_Buffer_lt (l : list Buffer) :
  NoDup l → Sorted (λ a b, Buffer_compare a b ≠ Gt) l →
  StronglySorted Buffer_lt l.
Proof.
  intros Hnd Hs. apply Sorted_StronglySorted; [apply _|].
  induction Hs as [|x l Hl IH Hx]; [constructor|].
  apply NoDup_cons in Hnd as [Hx' Hnd].
  constructor; [by apply IH|].
  destruct Hx as [|y l Hxy]; constructor.
  unfold Buffer_lt. destruct (Buffer_compare x y) eqn:E; try done.
  apply Buffer_compare_eq in E as ->. exfalso. apply Hx'. left.
Qed.

Lemma Buffer_sorted_unique (l1 l2 : list Buffer) :
  StronglySorted Buffer_lt l1 → StronglySorted Buffer_lt l2 →
  l1 ≡ₚ l2 → l1 = l2.
Proof.
  apply StronglySorted_unique_strong.
  intros x y _ _ H1 H2. unfold Buffer_lt in *.
  rewrite Buffer_compare_antisym, H1 in H2. done.
Qed.

Lemma imap_snd {A B} (f : nat → A → B * A) (l : list A) :
  (∀ i x, snd (f i x) = x) → snd <$> imap f l = l.
Proof.
  revert f. induction l as [|x l IH]; intros f Hf; [done|].
  rewrite imap_cons, fmap_cons, Hf. f_equal. apply IH. intros i y. apply Hf.
Qed.

Lemma imap_fst {A B} (f : nat → A → nat * B) (l : list A) (k : nat) :
  (∀ i x, fst (f i x) = (k + i)%nat) → fst <$> imap f l = seq k (length l).
Proof.
  revert f k. induction l as [|x l IH]; intros f k Hf; [done|].
  rewrite imap_cons, fmap_cons, Hf. simpl. f_equal; [lia|].
  apply IH. intros i y. simpl. rewrite Hf. lia.
Qed.

Lemma NoDup_fmap_eq {A B} (f : A → B) (l : list A) (x y : A) :
  NoDup (f <$> l) → x ∈ l → y ∈ l → f x = f y → x = y.
Proof.
  intros Hnd Hx Hy Hf.
  apply list_elem_of_lookup in Hx as [i Hi].
  apply list_elem_of_lookup in Hy as [j Hj].
  assert (i = j) as ->; [|congruence].
  apply (NoDup_lookup (f <$> l) i j (f x) Hnd).
  - by rewrite list_lookup_fmap, Hi.
  - by rewrite list_lookup_fmap, Hj, Hf.
Qed.

(** A stored hash has one row, and [getMessage] returns its payload. *)
Lemma getMessage_row (s : Store) (channelId : Buffer) (r : Row.t) :
  NoDup (Row.hash <$> messages s) →
  r ∈ messages s → Row.channel_id r = channelId →
  getMessage s channelId (Row.hash r) = Some (Row.blob r).
Proof.
  intros Hnd Hr Hc. unfold getMessage.
  destruct (filter _ (messages s)) as [|r' l] eqn:E.
  - assert (Hin : r ∈ filter (λ r0, Row.channel_id r0 = channelId ∧
                                    Row.hash r0 = Row.hash r) (messages s))
      by by apply list_elem_of_filter.
    rewrite E in Hin. by apply elem_of_nil in Hin.
  - assert (Hin : r' ∈ filter (λ r0, Row.channel_id r0 = channelId ∧
                                     Row.hash r0 = Row.hash r) (messages s))
      by (rewrite E; left).
    apply list_elem_of_filter in Hin as [[_ Hh] Hin]. simpl.
    by rewrite (NoDup_fmap_eq Row.hash (messages s) r' r Hnd Hin Hr Hh).
Qed.

(** With no more hashes than a batch holds there is one statement. *)
Lemma getMessages_rows_one_batch (s : Store) (channelId : Buffer)
    (hashes : list Buffer) :
  (length hashes <= MAX_VARIABLE_COUNT)%nat →
  getMessages_rows (length hashes) s channelId hashes 0 []
  = match hashes with [] => [] | _ => select_blobs s channelId hashes end.
Proof.
  intros Hlen. destruct hashes as [|h hashes]; [done|].
  cbn [getMessages_rows length].
  destruct (Nat.ltb_spec 0 (S (length hashes))); [|lia].
  rewrite drop_0, take_ge by done. simpl app.
  destruct (length hashes); [done|]. cbn [getMessages_rows].
  destruct (Nat.ltb_spec (0 + MAX_VARIABLE_COUNT) (length (h :: hashes))); [|done].
  simpl in *. lia.
Qed.

(** The last loop, when there is a row for every index of [order]. *)
Lemma getMessages_assign_ok (rows : list Buffer) (order : list nat) :
  ∀ (i : nat) (result : list (option Buffer)),
  (i + length order <= length rows)%nat →
  ∃ result',
    getMessages_assign rows i order result = Ok result' ∧
    length result' = length result ∧
    (NoDup order →
     ∀ k target, order !! k = Some target → (target < length result)%nat →
       result' !! target = Some (rows !! (i + k)%nat)) ∧
    (∀ j, j ∉ order → result' !! j = result !! j).
Proof.
  induction order as [|t order IH]; intros i result Hlen; simpl in *.
  - exists result. split_and!; try done.
  - destruct (rows !! i) as [blob|] eqn:E;
      [|apply lookup_ge_None in E; lia].
    destruct (IH (S i) (<[t := Some blob]> result)) as (result' & -> & Hl & Hin & Hout);
      [lia|].
    exists result'. rewrite length_insert in Hl. split_and!; try done.
    + intros Hnd k target Hk Ht. apply NoDup_cons in Hnd as [Ht' Hnd].
      destruct k as [|k]; simpl in Hk.
      * injection Hk as ->. rewrite Hout by done.
        rewrite list_lookup_insert_eq by done.
        by rewrite Nat.add_0_r, E.
      * rewrite (Hin Hnd k target Hk) by (by rewrite length_insert).
        do 2 f_equal. lia.
    + intros j Hj. apply not_elem_of_cons in Hj as [Hne Hj].
      rewrite Hout by done. by apply list_lookup_insert_ne.
Qed.

(** X24: what [getMessages] does deliver: for pairwise different hashes, no
    more than a batch holds and all stored in the channel, the list it
    returns has the length of the input and holds at every position the
    payload of the hash at that position. *)
Lemma getMessages_distinct_one_batch (s : Store) (channelId : Buffer)
    (hashes : list Buffer) :
  reachable s → NoDup hashes →
  (length hashes <= MAX_VARIABLE_COUNT)%nat →
  Forall (λ h, hasMessage s channelId h = true) hashes →
  ∃ result,
    getMessages s channelId hashes = Ok result ∧
    length result = length hashes ∧
    ∀ i h, hashes !! i = Some h →
           is_Some (getMessage s channelId h) ∧
           result !! i = Some (getMessage s channelId h).
Proof.
  intros Hs Hnd Hlen Hall. pose proof (reachable_NoDup s Hs) as Hkey.
  rewrite Forall_forall in Hall.
  unfold getMessages. rewrite getMessages_rows_one_batch by done.
  set (SE := order_by (λ a b : nat * Buffer, Buffer_compare (snd a) (snd b))
                      (imap (λ i h, (i, h)) hashes)).
  set (SR := order_by hash_asc
               (filter (λ r, Row.channel_id r = channelId ∧ Row.hash r ∈ hashes)
                       (messages s))).
  assert (Hrows : match hashes with
                  | [] => []
                  | _ => select_blobs s channelId hashes
                  end = Row.blob <$> SR).
  { destruct hashes as [|h0 hashes0] eqn:Eh; [|done].
    unfold SR. rewrite filter_none; [done|].
    intros r _ [_ Hin]. by apply elem_of_nil in Hin. }
  rewrite Hrows. clear Hrows.
  assert (HSE : SE ≡ₚ imap (λ i h, (i, h)) hashes) by apply order_by_Permutation.
  assert (HSR : SR ≡ₚ filter (λ r, Row.channel_id r = channelId ∧
                                   Row.hash r ∈ hashes) (messages s))
    by apply order_by_Permutation.
  assert (Hsnd : snd <$> SE ≡ₚ hashes).
  { rewrite HSE. by rewrite imap_snd. }
  assert (Hfst : fst <$> SE ≡ₚ seq 0 (length hashes)).
  { rewrite HSE. by rewrite (imap_fst _ _ 0%nat). }
  assert (Hkeys : Row.hash <$> SR = snd <$> SE).
  { apply Buffer_sorted_unique.
    - apply Sorted_Buffer_lt.
      + rewrite HSR. by apply NoDup_fmap_filter.
      + apply (Sorted_fmap _ (λ a b, hash_asc a b ≠ Gt)); [done|].
        apply order_by_Sorted. intros x y H. unfold hash_asc in *.
        rewrite Buffer_compare_antisym, H. done.
    - apply Sorted_Buffer_lt.
      + by rewrite Hsnd.
      + apply (Sorted_fmap _ (λ a b : nat * Buffer,
                               Buffer_compare (snd a) (snd b) ≠ Gt)); [done|].
        apply order_by_Sorted. intros x y H.
        rewrite Buffer_compare_antisym, H. done.
    - rewrite Hsnd. apply NoDup_Permutation; [|done|].
      + rewrite HSR. by apply NoDup_fmap_filter.
      + intros h. rewrite HSR, list_elem_of_fmap. split.
        * intros (r & -> & Hr). by apply list_elem_of_filter in Hr as [[_ ?] _].
        * intros Hh. apply Hall in Hh as Hst.
          apply hasMessage_true in Hst as (r & Hr & Hc & <-).
          exists r. split; [done|]. by apply list_elem_of_filter. }
  assert (Hlen_rows : length (Row.blob <$> SR) = length hashes).
  { rewrite length_fmap, <-(length_fmap Row.hash), Hkeys, Hsnd. done. }
  assert (Hlen_order : length (fst <$> SE) = length hashes).
  { by rewrite Hfst, length_seq. }
  destruct (getMessages_assign_ok (Row.blob <$> SR) (fst <$> SE) 0
              (replicate (length hashes) None)) as (result & -> & Hl & Hin & _);
    [lia|].
  rewrite length_replicate in Hl.
  exists result. split_and!; try done.
  intros i h Hi.
  assert (Hlt : (i < length hashes)%nat) by by apply lookup_lt_Some in Hi.
  assert (Hi_in : i ∈ fst <$> SE).
  { rewrite Hfst. apply elem_of_seq. lia. }
  apply list_elem_of_lookup in Hi_in as [k Hk].
  rewrite (Hin (proj2 (NoDup_Permutation_proper _ _ Hfst) (NoDup_seq _ _)) k i Hk)
    by (by rewrite length_replicate).
  simpl.
  rewrite list_lookup_fmap in Hk.
  destruct (SE !! k) as [[i' h']|] eqn:Ek; [|done]. injection Hk as ->.
  assert (Hpair : (i, h') ∈ imap (λ i h, (i, h)) hashes).
  { rewrite <-HSE. by eapply list_elem_of_lookup_2. }
  apply elem_of_lookup_imap in Hpair as (j & y & [= -> ->] & Hj).
  rewrite Hi in Hj. injection Hj as <-.
  assert (Hh : (Row.hash <$> SR) !! k = Some h).
  { by rewrite Hkeys, list_lookup_fmap, Ek. }
  rewrite list_lookup_fmap in Hh. rewrite list_lookup_fmap.
  destruct (SR !! k) as [r|] eqn:Er; [|done]. injection Hh as <-.
  assert (Hr : r ∈ filter (λ r, Row.channel_id r = channelId ∧
                                Row.hash r ∈ hashes) (messages s)).
  { rewrite <-HSR. by eapply list_elem_of_lookup_2. }
  apply list_elem_of_filter in Hr as [[Hc _] Hr].
  rewrite (getMessage_row s channelId r) by done. simpl. eauto.
Qed.

Example getMessages_in_input_order :
  getMessages abcd_store test_channel [[d_hash]; [a_hash]; [c_hash]]
  = Ok [Some [x32; x3a; x20; d_hash]; Some [x30; x3a; x20; a_hash];
        Some [x31; x3a; x20; c_hash]].
Proof. reflexivity. Qed.

(** C1, where the code parts from it.  A hash given twice gets one row
    from the statement, and the call throws; and when the list is longer
    than [MAX_VARIABLE_COUNT] the rows come back sorted batch by batch
    while [order] sorts the whole list, so that with the 901 stored
    hashes of [big_request] position 0, which asks for hash 1, receives
    the payload of hash 2, and the last position, which asks for hash 0,
    receives the payload of hash 1. *)
Theorem getMessages_duplicates_and_batches :
  (hasMessage abcd_store test_channel [a_hash] = true ∧
   getMessages abcd_store test_channel [[a_hash]; [a_hash]] = Throw TypeError) ∧
  (Forall (λ h, hasMessage big_store test_channel h = true) big_request ∧
   NoDup big_request ∧
   ∃ result,
     getMessages big_store test_channel big_request = Ok result ∧
     length result = 901%nat ∧
     big_request !! 0%nat = Some (nth_hash 1) ∧
     getMessage big_store test_channel (nth_hash 1) = Some (nth_hash 1) ∧
     result !! 0%nat = Some (Some (nth_hash 2)) ∧
     big_request !! 900%nat = Some (nth_hash 0) ∧
     getMessage big_store test_channel (nth_hash 0) = Some (nth_hash 0) ∧
     result !! 900%nat = Some (Some (nth_hash 1))).
Proof.
  split; [split; vm_compute; reflexivity|].
  split; [|split].
  - apply (bool_decide_unpack _). vm_compute. exact I.
  - apply (bool_decide_unpack _). vm_compute. exact I.
  - eexists. split; [vm_compute; reflexivity|].
    repeat split; vm_compute; reflexivity.
Qed.

(** ** Leaves *)

Lemma Parent_eta (e : Parent.t) (channelId h : Buffer) :
  e = Parent.mk channelId h ↔ Parent.channel_id e = channelId ∧ Parent.hash e = h.
Proof. destruct e; simpl; split; [by intros [= -> ->] | by intros [-> ->]]. Qed.

Lemma replace_into_parents_elem (e row : Parent.t) (table : list Parent.t) :
  e ∈ replace_into_parents row table ↔
  (e ∈ table ∧ Parent.hash e ≠ Parent.hash row) ∨ e = row.
Proof.
  unfold replace_into_parents.
  rewrite elem_of_app, list_elem_of_filter, list_elem_of_singleton. tauto.
Qed.

(** The [parents] table after the loop of [addMessage]. *)
Lemma add_parents_elem (channelId : Buffer) (ps : list Buffer)
    (table : list Parent.t) (e : Parent.t) :
  e ∈ foldl (λ table parentHash,
               replace_into_parents
                 {| Parent.channel_id := channelId; Parent.hash := parentHash |}
                 table) table ps ↔
  (e ∈ table ∧ Parent.hash e ∉ ps) ∨
  (Parent.channel_id e = channelId ∧ Parent.hash e ∈ ps).
Proof.
  revert table. induction ps as [|p ps IH]; intros table; simpl.
  - rewrite elem_of_nil. tauto.
  - rewrite IH, replace_into_parents_elem, Parent_eta, not_elem_of_cons, elem_of_cons.
    simpl. destruct (decide (Parent.hash e ∈ ps)); tauto.
Qed.

Lemma getLeafHashes_elem (s : Store) (channelId h : Buffer) :
  h ∈ getLeafHashes s channelId ↔
  stored s channelId h ∧ Parent.mk channelId h ∉ parents s.
Proof.
  unfold getLeafHashes, stored.
  rewrite list_elem_of_fmap, Exists_exists.
  setoid_rewrite list_elem_of_order_by.
  assert (Hp : ∀ x, x ∈ Parent.hash <$>
                      filter (λ p, Parent.channel_id p = channelId) (parents s)
                   ↔ Parent.mk channelId x ∈ parents s).
  { intros x. rewrite list_elem_of_fmap. split.
    - intros (e & -> & He). apply list_elem_of_filter in He as [Hc He].
      by replace (Parent.mk channelId (Parent.hash e)) with e
        by (by apply Parent_eta).
    - intros He. exists (Parent.mk channelId x). split; [done|].
      by apply list_elem_of_filter. }
  split.
  - intros (r & -> & Hr). apply list_elem_of_filter in Hr as [[Hc Hn] Hr].
    rewrite Hp in Hn. eauto.
  - intros [(r & Hr & Hc & <-) Hn]. exists r. split; [done|].
    apply list_elem_of_filter. rewrite Hp. done.
Qed.

Lemma getLeafHashes_NoDup (s : Store) (channelId : Buffer) :
  reachable s → NoDup (getLeafHashes s channelId).
Proof.
  intros Hs. unfold getLeafHashes. rewrite order_by_Permutation.
  by apply channel_rows_NoDup.
Qed.

Lemma reachable_unshared_reachable (s : Store) :
  reachable_unshared s → reachable s.
Proof.
  induction 1 as [|s message _ IH _|s channelId _ IH|s _ IH].
  - constructor.
  - apply (reachable_step s (OpAddMessage message) IH).
  - apply (reachable_step s (OpRemoveChannelMessages channelId) IH).
  - apply (reachable_step s OpClear IH).
Qed.

Lemma addMessage_edges_agree (s : Store) (message : Message.t) :
  edges_agree s → add_keeps_edges s message →
  edges_agree (snd (addMessage s message)).
Proof.
  intros Hagree [Hsame Hunshared].
  rewrite Forall_forall in Hsame. rewrite Forall_forall in Hunshared.
  destruct (decide (Forall (λ p, (length p <= 255)%nat) (Message.parents message)))
    as [Hps|Hps]; [|by rewrite addMessage_throw].
  rewrite addMessage_ok by done.
  intros channelId h. unfold referenced. simpl.
  rewrite add_parents_elem, Exists_exists. simpl.
  specialize (Hagree channelId h). unfold referenced in Hagree.
  rewrite Exists_exists in Hagree.
  split.
  - intros [[He Hh]|[<- Hh]].
    + apply Hagree in He as (r & Hr & Hc & Hin).
      destruct (decide (Row.hash r = Message.hash message)) as [Heq|Hne].
      * destruct (Hsame r Hr Heq) as [_ Hd]. rewrite Hd in Hin. done.
      * exists r. split_and!; try done.
        apply elem_of_app. left. by apply list_elem_of_filter.
    + eexists. split; [apply elem_of_app; right; left|].
      simpl. by rewrite decode_encode_elems.
  - intros (r & Hr & Hc & Hin).
    apply elem_of_app in Hr as [Hr|Hr].
    + apply list_elem_of_filter in Hr as [Hne Hr].
      assert (He : Parent.mk channelId h ∈ parents s) by (apply Hagree; eauto).
      destruct (decide (h ∈ Message.parents message)) as [Hh|Hh].
      * right. split; [|done]. by apply (Hunshared _ He).
      * by left.
    + apply list_elem_of_singleton in Hr as ->. simpl in *.
      rewrite decode_encode_elems in Hin by done. by right.
Qed.

Lemma removeChannelMessages_edges_agree (s : Store) (channelId : Buffer) :
  edges_agree s → edges_agree (removeChannelMessages s channelId).
Proof.
  intros Hagree c h. unfold referenced. simpl.
  rewrite list_elem_of_filter, Exists_exists. simpl.
  specialize (Hagree c h). unfold referenced in Hagree.
  rewrite Exists_exists in Hagree. rewrite Hagree.
  split.
  - intros [Hne (r & Hr & Hc & Hin)]. exists r. split_and!; try done.
    apply list_elem_of_filter. split; [congruence | done].
  - intros (r & Hr & Hc & Hin). apply list_elem_of_filter in Hr as [Hne Hr].
    split; [congruence | eauto].
Qed.

Lemma reachable_unshared_edges_agree (s : Store) :
  reachable_unshared s → edges_agree s.
Proof.
  induction 1 as [|s message _ IH Hkeep|s channelId _ IH|s _ IH].
  - intros c h. unfold referenced. simpl. rewrite elem_of_nil, Exists_nil. done.
  - by apply addMessage_edges_agree.
  - by apply removeChannelMessages_edges_agree.
  - intros c h. unfold referenced. simpl. rewrite elem_of_nil, Exists_nil. done.
Qed.

(** C4, as the code has it: in every store reached by [clear],
    [removeChannelMessages] and [addMessage] calls that name no parent
    hash already recorded as a parent under another channel and that
    re-insert a stored hash only with its channel and parents,
    [getLeafHashes] returns, each once, exactly the hashes of the messages
    stored in the channel that no message of that channel lists as a
    parent; and such an [addMessage], called while no transaction is open
    and with parents that can be encoded, succeeds, after it the parents
    of the message are not leaves of its channel, and the message is a
    leaf exactly when no message of the channel lists it as a parent. *)
Theorem getLeafHashes_unreferenced (s : Store) (channelId : Buffer) :
  reachable_unshared s →
  NoDup (getLeafHashes s channelId) ∧
  (∀ h, h ∈ getLeafHashes s channelId ↔
        stored s channelId h ∧ ¬ referenced s channelId h) ∧
  (∀ message,
     in_transaction s = false →
     add_keeps_edges s message →
     Forall (λ p, (length p <= 255)%nat) (Message.parents message) →
     let s' := snd (addMessage s message) in
     fst (addMessage s message) = Ok tt ∧
     (∀ p, p ∈ Message.parents message →
           p ∉ getLeafHashes s' (Message.channelId message)) ∧
     (Message.hash message ∈ getLeafHashes s' (Message.channelId message) ↔
      ¬ referenced s' (Message.channelId message) (Message.hash message))).
Proof.
  intros Hs.
  assert (Hleaf : ∀ s c h, reachable_unshared s →
            h ∈ getLeafHashes s c ↔ stored s c h ∧ ¬ referenced s c h).
  { intros s0 c h Hs0. rewrite getLeafHashes_elem.
    by rewrite (reachable_unshared_edges_agree s0 Hs0 c h). }
  split_and!.
  - by apply getLeafHashes_NoDup, reachable_unshared_reachable.
  - intros h. by apply Hleaf.
  - intros message _ Hkeep Hps s'.
    assert (Hs' : reachable_unshared s') by by constructor.
    split_and!.
    + by rewrite addMessage_ok.
    + intros p Hp. rewrite getLeafHashes_elem. intros [_ Hn]. apply Hn.
      unfold s'. rewrite addMessage_ok by done. simpl.
      apply add_parents_elem. by right.
    + rewrite (Hleaf s' _ _ Hs').
      assert (stored s' (Message.channelId message) (Message.hash message));
        [|tauto].
      unfold stored, s'. rewrite addMessage_ok by done. simpl.
      apply Exists_exists. eexists. split; [apply elem_of_app; right; left|].
      done.
Qed.

Lemma getLeafHashes_unreferenced_witness :
  NoDup (getLeafHashes leaves_store test_channel) ∧
  (∀ h, h ∈ getLeafHashes leaves_store test_channel ↔
        stored leaves_store test_channel h ∧
        ¬ referenced leaves_store test_channel h) ∧
  (∀ message,
     in_transaction leaves_store = false →
     add_keeps_edges leaves_store message →
     Forall (λ p, (length p <= 255)%nat) (Message.parents message) →
     let s' := snd (addMessage leaves_store message) in
     fst (addMessage leaves_store message) = Ok tt ∧
     (∀ p, p ∈ Message.parents message →
           p ∉ getLeafHashes s' (Message.channelId message)) ∧
     (Message.hash message ∈ getLeafHashes s' (Message.channelId message) ↔
      ¬ referenced s' (Message.channelId message) (Message.hash message))).
Proof.
  apply (getLeafHashes_unreferenced leaves_store test_channel).
  unfold leaves_store.
  repeat (apply unshared_add;
          [|apply (bool_decide_unpack _); vm_compute; exact I]).
  apply unshared_empty.
Defined.

(** The leaves test of the suite. *)
Example getLeafHashes_test :
  getLeafHashes empty_store test_channel = [] ∧
  getLeafHashes (run [OpAddMessage (msg a_hash 0 [])]) test_channel
    = [[a_hash]] ∧
  getLeafHashes (run [OpAddMessage (msg a_hash 0 []);
                      OpAddMessage (msg c_hash 1 [a_hash])]) test_channel
    = [[c_hash]] ∧
  getLeafHashes leaves_store test_channel = [[b_hash]; [c_hash]] ∧
  getLeafHashes (snd (addMessage leaves_store (msg d_hash 2 [b_hash; c_hash])))
                test_channel
    = [[d_hash]].
Proof. repeat split; reflexivity. Qed.

(** The claim as it was stated fails where two channels name the same
    parent: in [shared_parent_store], reached by three [addMessage] calls,
    [p] is listed as a parent by [m] in its own channel [A], and yet
    [getLeafHashes A] returns it, the edge having moved to channel [B]. *)
Lemma getLeafHashes_shared_parent :
  reachable shared_parent_store ∧
  ¬ (∀ h, h ∈ getLeafHashes shared_parent_store channel_A ↔
          stored shared_parent_store channel_A h ∧
          ¬ referenced shared_parent_store channel_A h).
Proof.
  split; [apply reachable_run|].
  intros Hclaim. destruct (Hclaim p_hash) as [Hleaf _].
  destruct Hleaf as [_ Hunref].
  - apply (bool_decide_unpack _). vm_compute. exact I.
  - apply Hunref. apply (bool_decide_unpack _). vm_compute. exact I.
Qed.

(** ** Backward queries *)

Lemma join_where_backward_selected (s : Store) (channelId hash : Buffer)
    (m : Row.t) :
  Exists (join_where channelId hash true m) (messages s) ↔
  Row.channel_id m = channelId ∧ backward_selected s channelId hash m.
Proof.
  rewrite Exists_exists. unfold join_where, backward_selected. split.
  - intros (o & Ho & Hc & Hoc & Hh & Hcond).
    split; [done|]. exists o. split_and!; [done | congruence | done | done].
  - intros (Hc & o & Ho & Hoc & Hh & Hcond).
    exists o. split_and!; [done | done | congruence | done | done].
Qed.

(** X23: what [query] returns for a backward query by hash, in every reachable
    store and for every limit up to [MAX_SAFE_INTEGER]: [L] being the rows
    of the channel strictly before the anchor, in ascending order, and [n]
    the limit clamped at zero, the page holds, for each of the last [n]
    rows of [L] in ascending order, the hash of the row and its decoded
    parents, [forwardHash] is the cursor's hash, and [backwardHash], when
    [L] has more than [n] rows, is the hash of the row of [L] just before
    the page. *)
Lemma query_backward_page (s : Store) (channelId hash : Buffer) (limit : Z) :
  reachable s → limit ≤ MAX_SAFE_INTEGER →
  ∃ L : list Row.t,
    StronglySorted crdt_lt L ∧
    (∀ m, m ∈ L ↔
          m ∈ messages s ∧ Row.channel_id m = channelId ∧
          backward_selected s channelId hash m) ∧
    let n := Z.to_nat (Z.max 0 limit) in
    query s channelId (CursorHash hash) true limit
    = Ok {| abbreviatedMessages :=
              (λ m, {| Abbreviated.hash := Row.hash m;
                       Abbreviated.parents :=
                         decodeHashList (Row.parent_hashes m) |})
                <$> drop (length L - n) L;
            backwardHash :=
              if decide (n < length L)%nat
              then Row.hash <$> L !! (length L - S n)%nat else None;
            forwardHash := Some hash |}.
Proof.
  intros Hs _. pose proof (reachable_NoDup s Hs) as Hnd.
  set (R := filter (λ m, Exists (join_where channelId hash true m) (messages s))
                   (messages s)).
  assert (HndR : NoDup (Row.hash <$> R)) by by apply NoDup_fmap_filter.
  exists (order_by crdt_asc R). split_and!.
  - by apply order_by_crdt_asc_sorted.
  - intros m. unfold R.
    rewrite list_elem_of_order_by, list_elem_of_filter,
      join_where_backward_selected. tauto.
  - intros n. unfold query, query_rows.
    rewrite query_join_filter by done. fold R.
    rewrite limit_offset_succ by lia. fold n.
    rewrite order_by_crdt_desc by done.
    set (L := order_by crdt_asc R).
    rewrite reverse_take, length_reverse, reverse_involutive.
    rewrite length_drop. simpl cursor_hash.
    destruct (decide (n < length L)%nat) as [Hlt|Hge].
    + destruct (Z.gtb_spec (Z.of_nat (length L - (length L - S n)))
                           (Z.max 0 limit)) as [_|Hle]; [|lia].
      rewrite <-fmap_drop, drop_drop, head_lookup, lookup_drop.
      replace (length L - S n + 1)%nat with (length L - n)%nat by lia.
      by replace (length L - S n + 0)%nat with (length L - S n)%nat by lia.
    + destruct (Z.gtb_spec (Z.of_nat (length L - (length L - S n)))
                           (Z.max 0 limit)) as [Hgt|_]; [lia|].
      by replace (length L - S n)%nat with (length L - n)%nat by lia.
Qed.

(** C2, where the code parts from it.  With a, b, c stored before the
    anchor d and a limit of 1, two rows are fetched, b and c; the page is
    [c], and [backwardHash] is the hash of b, the row that was fetched and
    dropped, not that of c, the earliest row kept.  The backward query
    selects the rows strictly before its anchor, so the next page, asked
    from that [backwardHash], is [a]: b is on no page. *)
Theorem query_backward_drops_row :
  query abcd_store test_channel (CursorHash [d_hash]) true 1
  = Ok {| abbreviatedMessages :=
            [{| Abbreviated.hash := [c_hash]; Abbreviated.parents := [] |}];
          backwardHash := Some [b_hash];
          forwardHash := Some [d_hash] |} ∧
  query abcd_store test_channel (CursorHash [b_hash]) true 1
  = Ok {| abbreviatedMessages :=
            [{| Abbreviated.hash := [a_hash]; Abbreviated.parents := [] |}];
          backwardHash := None;
          forwardHash := Some [b_hash] |}.
Proof. split; reflexivity. Qed.

(** The backward query of the test suite. *)
Example query_backward_by_hash :
  query abcd_store test_channel (CursorHash [b_hash]) true 2
  = Ok {| abbreviatedMessages :=
            [{| Abbreviated.hash := [a_hash]; Abbreviated.parents := [] |}];
          backwardHash := None;
          forwardHash := Some [b_hash] |}.
Proof. reflexivity. Qed.

Example query_backward_by_height :
  query abcd_store test_channel (CursorHeight 1) true 2 = Throw BackwardsByHeight.
Proof. reflexivity. Qed.

(** A message stored again with other parents leaves its old edges in
    [parents]: here nothing lists [p] any more, and [p] is still not
    returned as a leaf. *)
Example getLeafHashes_stale_edge :
  stored overwritten_store channel_A p_hash ∧
  ¬ referenced overwritten_store channel_A p_hash ∧
  getLeafHashes overwritten_store channel_A = [m_hash].
Proof.
  split_and!; [| |reflexivity]; apply (bool_decide_unpack _); vm_compute; exact I.
Qed.

(** ** Storing and looking up a message *)

(** The rows a lookup by channel and hash finds after a [REPLACE]. *)
Lemma lookup_replace_into_messages (row : Row.t) (table : list Row.t)
    (channelId h : Buffer) :
  filter (λ r, Row.channel_id r = channelId ∧ Row.hash r = h)
         (replace_into_messages row table)
  = if decide (h = Row.hash row)
    then (if decide (Row.channel_id row = channelId) then [row] else [])
    else filter (λ r, Row.channel_id r = channelId ∧ Row.hash r = h) table.
Proof.
  unfold replace_into_messages. rewrite filter_app.
  destruct (decide (h = Row.hash row)) as [->|Hne].
  - rewrite filter_none.
    + rewrite filter_cons, filter_nil. simpl.
      destruct (decide (Row.channel_id row = channelId)).
      * by rewrite decide_True.
      * rewrite decide_False; [done | tauto].
    + intros r Hr [_ Hh]. by apply list_elem_of_filter in Hr as [Hne _].
  - rewrite filter_cons, filter_nil.
    rewrite (decide_False (P := _ ∧ Row.hash row = h)) by (intros [_ ?]; congruence).
    rewrite app_nil_r. apply filter_filter_absorb.
    intros r [_ ->]. congruence.
Qed.

(** X1: an [addMessage] called while no transaction is open, with parents
    that can be encoded, succeeds; after it [hasMessage] and [getMessage]
    find the message, with its payload, in its channel and in no other
    channel, and the lookups of every other hash are what they were. *)
Theorem addMessage_then_lookup (s : Store) (message : Message.t) :
  in_transaction s = false →
  Forall (λ p, (length p <= 255)%nat) (Message.parents message) →
  let s' := snd (addMessage s message) in
  fst (addMessage s message) = Ok tt ∧
  hasMessage s' (Message.channelId message) (Message.hash message) = true ∧
  getMessage s' (Message.channelId message) (Message.hash message)
    = Some (Message.data message) ∧
  (∀ c, c ≠ Message.channelId message →
        hasMessage s' c (Message.hash message) = false ∧
        getMessage s' c (Message.hash message) = None) ∧
  (∀ c h, h ≠ Message.hash message →
          hasMessage s' c h = hasMessage s c h ∧
          getMessage s' c h = getMessage s c h).
Proof.
  intros _ Hps s'. unfold s'. rewrite addMessage_ok by done.
  unfold hasMessage, getMessage. simpl.
  split_and!; try done.
  - rewrite lookup_replace_into_messages. simpl.
    by rewrite !decide_True by done.
  - rewrite lookup_replace_into_messages. simpl.
    by rewrite !decide_True by done.
  - intros c Hc. rewrite lookup_replace_into_messages. simpl.
    rewrite decide_True by done. by rewrite decide_False by done.
  - intros c h Hh. rewrite lookup_replace_into_messages. simpl.
    by rewrite decide_False by done.
Qed.

Lemma addMessage_then_lookup_witness :
  let message := msg b_hash 1 [a_hash] in
  let s' := snd (addMessage abcd_store message) in
  fst (addMessage abcd_store message) = Ok tt ∧
  hasMessage s' (Message.channelId message) (Message.hash message) = true ∧
  getMessage s' (Message.channelId message) (Message.hash message)
    = Some (Message.data message) ∧
  (∀ c, c ≠ Message.channelId message →
        hasMessage s' c (Message.hash message) = false ∧
        getMessage s' c (Message.hash message) = None) ∧
  (∀ c h, h ≠ Message.hash message →
          hasMessage s' c h = hasMessage abcd_store c h ∧
          getMessage s' c h = getMessage abcd_store c h).
Proof.
  intros message.
  apply (addMessage_then_lookup abcd_store message).
  - reflexivity.
  - repeat constructor; simpl; lia.
Defined.

(** Rows with pairwise different keys: deleting by key removes one row
    when the key is there and none when it is not. *)
Lemma length_filter_key {A K} `{EqDecision K} (key : A → K) (k : K)
    (l : list A) :
  NoDup (key <$> l) →
  (length (filter (λ x, key x ≠ k) l)
   + (if decide (k ∈ key <$> l) then 1 else 0))%nat = length l.
Proof.
  induction l as [|x l IH]; intros Hnd; [done|].
  rewrite fmap_cons in Hnd. apply NoDup_cons in Hnd as [Hx Hnd].
  specialize (IH Hnd). rewrite filter_cons, fmap_cons.
  destruct (decide (key x = k)) as [<-|Hne].
  - rewrite decide_False by tauto.
    rewrite (decide_True (P := key x ∈ key x :: _)) by left.
    rewrite decide_False in IH by done. simpl. lia.
  - rewrite decide_True by done. simpl.
    destruct (decide (k ∈ key <$> l)) as [Hin|Hin].
    + rewrite decide_True by (by right). lia.
    + rewrite decide_False; [lia|].
      intros [?|?]%elem_of_cons; congruence.
Qed.

Lemma hasMessage_elem (s : Store) (channelId h : Buffer) :
  hasMessage s channelId h = true ↔
  h ∈ Row.hash <$> filter (λ r, Row.channel_id r = channelId) (messages s).
Proof.
  rewrite hasMessage_true, list_elem_of_fmap. split.
  - intros (r & Hr & Hc & <-). exists r. split; [done|].
    by apply list_elem_of_filter.
  - intros (r & -> & Hr). apply list_elem_of_filter in Hr as [Hc Hr]. eauto.
Qed.

(** X2: in a reachable store with no transaction open, an [addMessage]
    whose parents can be encoded changes the
    message count of a channel by one less if the channel held the hash
    before and one more if it is the channel of the message: a new hash
    adds one to its channel, a hash stored again in its channel leaves the
    count, a hash moved from another channel takes one from there. *)
Theorem addMessage_count (s : Store) (message : Message.t) (c : Buffer) :
  reachable s → in_transaction s = false →
  Forall (λ p, (length p <= 255)%nat) (Message.parents message) →
  (getMessageCount (snd (addMessage s message)) c
   + (if hasMessage s c (Message.hash message) then 1 else 0))%nat
  = (getMessageCount s c
     + (if decide (c = Message.channelId message) then 1 else 0))%nat.
Proof.
  intros Hs _ Hps. rewrite addMessage_ok by done.
  unfold getMessageCount, replace_into_messages. simpl.
  rewrite filter_app, length_app.
  assert (Hcomm :
    filter (λ r, Row.channel_id r = c)
           (filter (λ r, Row.hash r ≠ Message.hash message) (messages s))
    = filter (λ r, Row.hash r ≠ Message.hash message)
             (filter (λ r, Row.channel_id r = c) (messages s))).
  { rewrite !list_filter_filter. apply list_filter_iff. tauto. }
  rewrite Hcomm.
  pose proof (length_filter_key Row.hash (Message.hash message)
                (filter (λ r, Row.channel_id r = c) (messages s))
                (channel_rows_NoDup s _ Hs)) as Hlen.
  assert (Hhas : (if hasMessage s c (Message.hash message) then 1 else 0)%nat
                 = (if decide (Message.hash message
                               ∈ Row.hash <$> filter (λ r, Row.channel_id r = c)
                                                    (messages s))
                    then 1 else 0)%nat).
  { destruct (hasMessage s c (Message.hash message)) eqn:E.
    - apply hasMessage_elem in E. by rewrite decide_True.
    - rewrite decide_False; [done|]. intros Hin.
      apply hasMessage_elem in Hin. congruence. }
  rewrite Hhas, filter_cons, filter_nil. simpl.
  destruct (decide (Message.channelId message = c)) as [Hc|Hc].
  - rewrite (decide_True (P := c = _)) by done. simpl. lia.
  - rewrite (decide_False (P := c = _)) by done. simpl. lia.
Qed.

Lemma addMessage_count_witness :
  (getMessageCount (snd (addMessage abcd_store (msg b_hash 1 [a_hash])))
                   test_channel
   + (if hasMessage abcd_store test_channel
                    (Message.hash (msg b_hash 1 [a_hash])) then 1 else 0))%nat
  = (getMessageCount abcd_store test_channel
     + (if decide (test_channel = Message.channelId (msg b_hash 1 [a_hash]))
        then 1 else 0))%nat.
Proof.
  apply (addMessage_count abcd_store (msg b_hash 1 [a_hash]) test_channel).
  - apply reachable_run.
  - reflexivity.
  - repeat constructor; simpl; lia.
Defined.

(** ** Storing a message twice *)

Lemma add_parents_split (channelId : Buffer) (ps : list Buffer)
    (table : list Parent.t) :
  add_parents channelId table ps
  = filter (λ e, Parent.hash e ∉ ps) table ++ add_parents channelId [] ps.
Proof.
  unfold add_parents. revert table.
  induction ps as [|p ps IH]; intros table; simpl.
  - rewrite app_nil_r. symmetry. apply filter_all.
    intros e _. apply not_elem_of_nil.
  - rewrite IH. rewrite (IH (replace_into_parents _ [])).
    unfold replace_into_parents. simpl.
    rewrite filter_app, list_filter_filter, <-(assoc_L (++)). f_equal.
    apply list_filter_iff. intros e. rewrite not_elem_of_cons. tauto.
Qed.

Lemma add_parents_twice (channelId : Buffer) (ps : list Buffer)
    (table : list Parent.t) :
  add_parents channelId (add_parents channelId table ps) ps
  = add_parents channelId table ps.
Proof.
  rewrite (add_parents_split _ _ (add_parents channelId table ps)).
  rewrite (add_parents_split _ _ table) at 1.
  rewrite filter_app, (add_parents_split _ _ table). f_equal.
  - rewrite (filter_none _ (add_parents channelId [] ps)).
    + rewrite app_nil_r. apply filter_all.
      intros e He. by apply list_elem_of_filter in He as [? _].
    + intros e He Hn. apply add_parents_elem in He as [[He _]|[_ He]].
      * by apply elem_of_nil in He.
      * done.
Qed.

(** X3: [addMessage] is idempotent: called while no transaction is open,
    with parents that can be encoded, it succeeds and leaves no transaction
    open, and giving it the same message a second time succeeds again and
    leaves both tables, rows and their order, as the first call left
    them. *)
Theorem addMessage_idempotent (s : Store) (message : Message.t) :
  in_transaction s = false →
  Forall (λ p, (length p <= 255)%nat) (Message.parents message) →
  fst (addMessage s message) = Ok tt ∧
  in_transaction (snd (addMessage s message)) = false ∧
  addMessage (snd (addMessage s message)) message = addMessage s message.
Proof.
  intros _ Hps. rewrite !addMessage_ok by done. simpl.
  split_and!; [done | done |]. do 2 f_equal.
  - unfold replace_into_messages. simpl.
    rewrite filter_app, filter_cons, filter_nil. simpl.
    rewrite decide_False by tauto. rewrite app_nil_r. f_equal.
    apply filter_all. intros r Hr. by apply list_elem_of_filter in Hr as [? _].
  - apply (add_parents_twice (Message.channelId message)).
Qed.

Lemma addMessage_idempotent_witness :
  fst (addMessage two_channel_store q_message) = Ok tt ∧
  in_transaction (snd (addMessage two_channel_store q_message)) = false ∧
  addMessage (snd (addMessage two_channel_store q_message)) q_message
    = addMessage two_channel_store q_message.
Proof.
  apply (addMessage_idempotent two_channel_store q_message).
  - reflexivity.
  - repeat constructor; simpl; lia.
Defined.

(** ** The primary key of [messages], seen from outside *)

(** X4: in a reachable store a hash is stored in at most one channel. *)
Theorem hash_in_one_channel (s : Store) (c1 c2 h : Buffer) :
  reachable s →
  hasMessage s c1 h = true → hasMessage s c2 h = true → c1 = c2.
Proof.
  intros Hs H1 H2.
  apply hasMessage_true in H1 as (r1 & Hr1 & <- & Hh1).
  apply hasMessage_true in H2 as (r2 & Hr2 & <- & Hh2).
  f_equal. apply (NoDup_fmap_eq Row.hash (messages s)); try done.
  - by apply reachable_NoDup.
  - congruence.
Qed.

Lemma hash_in_one_channel_witness : channel_A = channel_A.
Proof.
  apply (hash_in_one_channel shared_parent_store channel_A channel_A p_hash).
  - apply reachable_run.
  - vm_compute. reflexivity.
  - vm_compute. reflexivity.
Defined.

(** ** The edges an [addMessage] writes *)

(** X5: an [addMessage] called while no transaction is open, with parents
    that can be encoded, succeeds, and after it, for every parent of the
    message: the parent is not a leaf of the channel of the message, and
    when it is stored in another channel it is a leaf of that channel,
    whatever was recorded for it there before. *)
Theorem addMessage_parent_edges (s : Store) (message : Message.t) :
  in_transaction s = false →
  Forall (λ p, (length p <= 255)%nat) (Message.parents message) →
  let s' := snd (addMessage s message) in
  fst (addMessage s message) = Ok tt ∧
  ∀ p, p ∈ Message.parents message →
    (p ∉ getLeafHashes s' (Message.channelId message)) ∧
    (∀ c, c ≠ Message.channelId message → stored s' c p →
          p ∈ getLeafHashes s' c).
Proof.
  intros _ Hps s'. split; [by rewrite addMessage_ok|].
  intros p Hp.
  assert (Hedge : ∀ c, Parent.mk c p ∈ parents s' ↔ c = Message.channelId message).
  { intros c. unfold s'. rewrite addMessage_ok by done. simpl.
    rewrite add_parents_elem. simpl. split.
    - intros [[_ Hn]|[? _]]; [done | done].
    - intros ->. by right. }
  split.
  - rewrite getLeafHashes_elem, Hedge. tauto.
  - intros c Hc Hst. rewrite getLeafHashes_elem, Hedge. tauto.
Qed.

(** In [two_channel_store], [n] is a leaf of channel [B] and [p], stored
    in channel [A], is not a leaf of [A]; after the message of channel [B]
    with parents [p] and [n] is stored, both are still stored where they
    were. *)
Lemma addMessage_parent_edges_witness :
  let s' := snd (addMessage two_channel_store q_message) in
  (n_hash ∈ getLeafHashes two_channel_store channel_B ∧
   (p_hash ∉ getLeafHashes two_channel_store channel_A) ∧
   stored s' channel_B n_hash ∧ stored s' channel_A p_hash) ∧
  fst (addMessage two_channel_store q_message) = Ok tt ∧
  ∀ p, p ∈ Message.parents q_message →
    (p ∉ getLeafHashes s' (Message.channelId q_message)) ∧
    (∀ c, c ≠ Message.channelId q_message → stored s' c p →
          p ∈ getLeafHashes s' c).
Proof.
  intros s'. split.
  - split_and!; apply (bool_decide_unpack _); vm_compute; exact I.
  - apply (addMessage_parent_edges two_channel_store q_message).
    + reflexivity.
    + repeat constructor; simpl; lia.
Defined.

(** ** Listing a channel *)

(** X6: in a reachable store, reading [getMessageCount] hashes from
    offset 0 lists the channel: as many hashes as the count, none twice,
    exactly those [hasMessage] finds in the channel; and the reverse
    reading is that list reversed. *)
Theorem channel_listing (s : Store) (channelId : Buffer) :
  reachable s →
  length (getHashesAtOffset s channelId 0 (Z.of_nat (getMessageCount s channelId)))
    = getMessageCount s channelId ∧
  NoDup (getHashesAtOffset s channelId 0 (Z.of_nat (getMessageCount s channelId))) ∧
  (∀ h, h ∈ getHashesAtOffset s channelId 0
                (Z.of_nat (getMessageCount s channelId))
        ↔ hasMessage s channelId h = true) ∧
  getReverseHashesAtOffset s channelId 0 (Z.of_nat (getMessageCount s channelId))
    = reverse (getHashesAtOffset s channelId 0
                 (Z.of_nat (getMessageCount s channelId))).
Proof.
  intros Hs.
  set (n := Z.of_nat (getMessageCount s channelId)).
  set (hs := getHashesAtOffset s channelId 0 n).
  set (rows := filter (λ r, Row.channel_id r = channelId) (messages s)).
  assert (Hnd : NoDup (Row.hash <$> rows)) by by apply channel_rows_NoDup.
  assert (Hn : Z.to_nat n = length rows)
    by (unfold n, getMessageCount, rows; lia).
  assert (Hhs : hs = Row.hash <$> order_by crdt_asc rows).
  { unfold hs, getHashesAtOffset. rewrite limit_offset_nonneg by lia.
    fold rows. rewrite drop_0, take_ge; [done|].
    rewrite order_by_length. lia. }
  split_and!.
  - by rewrite Hhs, length_fmap, order_by_length.
  - by rewrite Hhs, order_by_Permutation.
  - intros h. by rewrite Hhs, order_by_Permutation, hasMessage_elem.
  - unfold getReverseHashesAtOffset. rewrite limit_offset_nonneg by lia.
    fold rows. rewrite order_by_crdt_desc by done.
    rewrite drop_0, take_ge by (rewrite length_reverse, order_by_length; lia).
    by rewrite Hhs, fmap_reverse.
Qed.

Lemma channel_listing_witness :
  length (getHashesAtOffset abcd_store test_channel 0
            (Z.of_nat (getMessageCount abcd_store test_channel)))
    = getMessageCount abcd_store test_channel ∧
  NoDup (getHashesAtOffset abcd_store test_channel 0
           (Z.of_nat (getMessageCount abcd_store test_channel))) ∧
  (∀ h, h ∈ getHashesAtOffset abcd_store test_channel 0
                (Z.of_nat (getMessageCount abcd_store test_channel))
        ↔ hasMessage abcd_store test_channel h = true) ∧
  getReverseHashesAtOffset abcd_store test_channel 0
      (Z.of_nat (getMessageCount abcd_store test_channel))
    = reverse (getHashesAtOffset abcd_store test_channel 0
                 (Z.of_nat (getMessageCount abcd_store test_channel))).
Proof.
  apply (channel_listing abcd_store test_channel). apply reachable_run.
Defined.

(** X7: consecutive windows join: for non-negative offset and limits
    whose sum is at most [MAX_SAFE_INTEGER], the
    window of [l1] hashes at [offset] followed by the window of [l2] hashes
    at [offset + l1] is the window of [l1 + l2] hashes at [offset], in the
    forward and in the reverse reading. *)
Theorem getHashesAtOffset_windows (s : Store) (channelId : Buffer)
    (offset l1 l2 : Z) :
  0 ≤ offset → 0 ≤ l1 → 0 ≤ l2 → offset + l1 + l2 ≤ MAX_SAFE_INTEGER →
  getHashesAtOffset s channelId offset l1
    ++ getHashesAtOffset s channelId (offset + l1) l2
  = getHashesAtOffset s channelId offset (l1 + l2) ∧
  getReverseHashesAtOffset s channelId offset l1
    ++ getReverseHashesAtOffset s channelId (offset + l1) l2
  = getReverseHashesAtOffset s channelId offset (l1 + l2).
Proof.
  intros Ho H1 H2 _. unfold getHashesAtOffset, getReverseHashesAtOffset.
  rewrite !limit_offset_nonneg by lia.
  rewrite <-!fmap_app.
  replace (Z.to_nat (offset + l1)) with (Z.to_nat offset + Z.to_nat l1)%nat by lia.
  replace (Z.to_nat (l1 + l2)) with (Z.to_nat l1 + Z.to_nat l2)%nat by lia.
  by rewrite <-!drop_drop, !take_take_drop.
Qed.

Lemma getHashesAtOffset_windows_witness :
  getHashesAtOffset abcd_store test_channel 1 1
    ++ getHashesAtOffset abcd_store test_channel (1 + 1) 2
  = getHashesAtOffset abcd_store test_channel 1 (1 + 2) ∧
  getReverseHashesAtOffset abcd_store test_channel 1 1
    ++ getReverseHashesAtOffset abcd_store test_channel (1 + 1) 2
  = getReverseHashesAtOffset abcd_store test_channel 1 (1 + 2).
Proof.
  apply (getHashesAtOffset_windows abcd_store test_channel 1 1 2);
    [lia | lia | lia | vm_compute; discriminate].
Defined.

(** ** Purging twice, and two channels *)

(** X8: called while no transaction is open, [removeChannelMessages]
    leaves no transaction open and is idempotent, two purges of different
    channels end in the same store in either order, and after a purge no
    lookup, no listing with offset and limit from 0 to [MAX_SAFE_INTEGER]
    and no forward query by hash with a limit up to [MAX_SAFE_INTEGER]
    finds anything in the channel. *)
Theorem removeChannelMessages_again (s : Store) (c c' : Buffer) :
  in_transaction s = false →
  in_transaction (removeChannelMessages s c) = false ∧
  removeChannelMessages (removeChannelMessages s c) c
    = removeChannelMessages s c ∧
  removeChannelMessages (removeChannelMessages s c) c'
    = removeChannelMessages (removeChannelMessages s c') c ∧
  (∀ h, hasMessage (removeChannelMessages s c) c h = false ∧
        getMessage (removeChannelMessages s c) c h = None) ∧
  (∀ offset limit,
     0 ≤ offset ≤ MAX_SAFE_INTEGER → 0 ≤ limit ≤ MAX_SAFE_INTEGER →
     getHashesAtOffset (removeChannelMessages s c) c offset limit = [] ∧
     getReverseHashesAtOffset (removeChannelMessages s c) c offset limit = []) ∧
  (∀ h limit,
     limit ≤ MAX_SAFE_INTEGER →
     query (removeChannelMessages s c) c (CursorHash h) false limit
     = Ok {| abbreviatedMessages := []; backwardHash := None;
             forwardHash := None |}).
Proof.
  intros _.
  assert (Hgone : ∀ P : Row.t → Prop, ∀ `{∀ r, Decision (P r)},
            (∀ r, P r → Row.channel_id r = c) →
            filter P (messages (removeChannelMessages s c)) = []).
  { intros P ? HP. apply filter_none. intros r Hr HPr.
    apply list_elem_of_filter in Hr as [Hne _]. by apply Hne, HP. }
  assert (Hhas : ∀ h, hasMessage (removeChannelMessages s c) c h = false).
  { intros h. unfold hasMessage. rewrite Hgone; [done|]. by intros r [? _]. }
  split_and!.
  - done.
  - unfold removeChannelMessages, commit_transaction, begin_transaction.
    simpl. f_equal.
    + apply filter_all. intros r Hr. by apply list_elem_of_filter in Hr as [? _].
    + apply filter_all. intros r Hr. by apply list_elem_of_filter in Hr as [? _].
  - unfold removeChannelMessages, commit_transaction, begin_transaction.
    simpl. f_equal.
    + rewrite !list_filter_filter. apply list_filter_iff. tauto.
    + rewrite !list_filter_filter. apply list_filter_iff. tauto.
  - intros h. split; [done|].
    unfold getMessage. rewrite Hgone; [done|]. by intros r [? _].
  - intros offset limit _ _. unfold getHashesAtOffset, getReverseHashesAtOffset.
    rewrite Hgone by done. simpl. by rewrite limit_offset_nil.
  - intros h limit _. unfold query, query_rows.
    rewrite query_join_missing by done. simpl.
    rewrite limit_offset_nil. simpl.
    by destruct (Z.of_nat 0 >? Z.max 0 limit).
Qed.

Lemma removeChannelMessages_again_witness :
  let s := shared_parent_store in
  let c := channel_A in
  let c' := channel_B in
  in_transaction (removeChannelMessages s c) = false ∧
  removeChannelMessages (removeChannelMessages s c) c
    = removeChannelMessages s c ∧
  removeChannelMessages (removeChannelMessages s c) c'
    = removeChannelMessages (removeChannelMessages s c') c ∧
  (∀ h, hasMessage (removeChannelMessages s c) c h = false ∧
        getMessage (removeChannelMessages s c) c h = None) ∧
  (∀ offset limit,
     0 ≤ offset ≤ MAX_SAFE_INTEGER → 0 ≤ limit ≤ MAX_SAFE_INTEGER →
     getHashesAtOffset (removeChannelMessages s c) c offset limit = [] ∧
     getReverseHashesAtOffset (removeChannelMessages s c) c offset limit = []) ∧
  (∀ h limit,
     limit ≤ MAX_SAFE_INTEGER →
     query (removeChannelMessages s c) c (CursorHash h) false limit
     = Ok {| abbreviatedMessages := []; backwardHash := None;
             forwardHash := None |}).
Proof.
  intros s c c'.
  apply (removeChannelMessages_again s c c'). reflexivity.
Defined.

(** ** What a query returns, whatever the store *)

Lemma query_rows_spec (s : Store) (channelId : Buffer) (cursor : Cursor)
    (isBackward : bool) (limit : Z) (rows : list Row.t) :
  0 ≤ limit →
  query_rows s channelId cursor isBackward limit = Ok rows →
  (length rows <= S (Z.to_nat limit))%nat ∧
  ∀ r, r ∈ rows → r ∈ messages s ∧ Row.channel_id r = channelId.
Proof.
  intros Hl Hq. unfold query_rows in Hq.
  destruct cursor as [hash|height].
  - injection Hq as <-. rewrite limit_offset_succ by done. split.
    + rewrite length_take. lia.
    + intros r Hr. apply subseteq_take in Hr.
      apply list_elem_of_order_by in Hr.
      apply list_elem_of_bind in Hr as (m & Hr & Hm).
      apply list_elem_of_bind in Hr as (o & Hr & Ho).
      case_decide as Hj; [|by apply elem_of_nil in Hr].
      apply list_elem_of_singleton in Hr as ->.
      by destruct Hj as (? & _).
  - destruct isBackward; [done|].
    injection Hq as <-. rewrite limit_offset_succ by done. split.
    + rewrite length_take. lia.
    + intros r Hr. apply subseteq_take in Hr.
      apply list_elem_of_order_by in Hr.
      apply list_elem_of_filter in Hr as [[? _] ?]. done.
Qed.

(** X9: whatever the store, the cursor and the direction, a query that
    returns holds at most [max 0 limit] messages in its page, each the hash
    and decoded parents of a row stored in the channel; its [backwardHash],
    when not null, is the hash of a message of the channel, and so is the
    [forwardHash] of a forward query. *)
Theorem query_page_bounds (s : Store) (channelId : Buffer) (cursor : Cursor)
    (isBackward : bool) (limit : Z) (r : QueryResult) :
  query s channelId cursor isBackward limit = Ok r →
  (length (abbreviatedMessages r) <= Z.to_nat (Z.max 0 limit))%nat ∧
  (∀ a, a ∈ abbreviatedMessages r →
        ∃ row, row ∈ messages s ∧ Row.channel_id row = channelId ∧
               a = abbreviate row) ∧
  (∀ h, backwardHash r = Some h → hasMessage s channelId h = true) ∧
  (isBackward = false →
   ∀ h, forwardHash r = Some h → hasMessage s channelId h = true).
Proof.
  unfold query.
  destruct (query_rows s channelId cursor isBackward (Z.max 0 limit))
    as [rows0|e] eqn:Hq; [|done].
  apply query_rows_spec in Hq as [Hlen Hin]; [|lia].
  set (rows := if isBackward then reverse rows0 else rows0).
  assert (Hlen' : length rows = length rows0).
  { unfold rows. destruct isBackward; simpl; [apply length_reverse | done]. }
  assert (Hin' : ∀ x, x ∈ rows → x ∈ messages s ∧ Row.channel_id x = channelId).
  { intros x Hx. apply Hin. unfold rows in Hx.
    destruct isBackward; simpl in Hx; [|done].
    rewrite elem_of_reverse in Hx. done. }
  assert (Hhas : ∀ x, x ∈ rows → hasMessage s channelId (Row.hash x) = true).
  { intros x Hx. apply hasMessage_true. exists x.
    destruct (Hin' x Hx). done. }
  assert (Habbr : ∀ a, a ∈ abbreviate <$> rows →
            ∃ row, row ∈ messages s ∧ Row.channel_id row = channelId ∧
                   a = abbreviate row).
  { intros a Ha. apply list_elem_of_fmap in Ha as (x & -> & Hx).
    exists x. destruct (Hin' x Hx). done. }
  assert (Hhead : ∀ h, Row.hash <$> head rows = Some h →
            hasMessage s channelId h = true).
  { intros h Hh. destruct (head rows) as [x|] eqn:E; [|done].
    injection Hh as <-. by apply Hhas, head_Some_elem_of. }
  destruct isBackward.
  - destruct (Z.gtb_spec (Z.of_nat (length rows)) (Z.max 0 limit)) as [Hgt|Hle];
      intros [= <-]; simpl.
    + split_and!; try done.
      * rewrite length_drop, length_fmap. lia.
      * intros a Ha. by apply Habbr, (subseteq_drop 1).
    + split_and!; try done. rewrite length_fmap. lia.
  - destruct (Z.gtb_spec (Z.of_nat (length rows)) (Z.max 0 limit)) as [Hgt|Hle];
      intros [= <-]; simpl.
    + split_and!; try done.
      * rewrite length_take, length_fmap. lia.
      * intros a Ha. by apply Habbr, (subseteq_take (length (abbreviate <$> rows) - 1)).
      * intros _ h Hh. destruct (last rows) as [x|] eqn:E; [|done].
        injection Hh as <-. by apply Hhas, last_Some_elem_of.
    + split_and!; try done. rewrite length_fmap. lia.
Qed.

Lemma query_page_bounds_witness :
  let r :=
    {| abbreviatedMessages :=
         [{| Abbreviated.hash := [b_hash]; Abbreviated.parents := [] |}];
       backwardHash := Some [b_hash];
       forwardHash := Some [c_hash] |} in
  (length (abbreviatedMessages r) <= Z.to_nat (Z.max 0 1))%nat ∧
  (∀ a, a ∈ abbreviatedMessages r →
        ∃ row, row ∈ messages abcd_store ∧ Row.channel_id row = test_channel ∧
               a = abbreviate row) ∧
  (∀ h, backwardHash r = Some h → hasMessage abcd_store test_channel h = true) ∧
  (false = false →
   ∀ h, forwardHash r = Some h → hasMessage abcd_store test_channel h = true).
Proof.
  intros r.
  apply (query_page_bounds abcd_store test_channel (CursorHeight 1) false 1 r).
  vm_compute. reflexivity.
Defined.

(** ** Forward paging *)

Lemma query_forward_eq (s : Store) (channelId : Buffer) (cursor : Cursor)
    (limit : Z) :
  query s channelId cursor false limit
  = Ok {| abbreviatedMessages :=
            abbreviate <$> take (Z.to_nat (Z.max 0 limit))
                                (forward_rows s channelId cursor);
          backwardHash := Row.hash <$> head (forward_rows s channelId cursor);
          forwardHash :=
            Row.hash <$> forward_rows s channelId cursor
                           !! Z.to_nat (Z.max 0 limit) |}.
Proof.
  apply query_forward_of_rows. unfold query_rows, forward_rows.
  destruct cursor; by rewrite limit_offset_succ by lia.
Qed.

Lemma forward_rows_sorted (s : Store) (channelId : Buffer) (cursor : Cursor) :
  reachable s → StronglySorted crdt_lt (forward_rows s channelId cursor).
Proof.
  intros Hs. pose proof (reachable_NoDup s Hs) as Hnd.
  unfold forward_rows. apply order_by_crdt_asc_sorted.
  destruct cursor as [hash|height].
  - rewrite query_join_filter by done. by apply NoDup_fmap_filter.
  - by apply NoDup_fmap_filter.
Qed.

Lemma forward_rows_elem (s : Store) (channelId : Buffer) (cursor : Cursor)
    (m : Row.t) :
  reachable s →
  m ∈ forward_rows s channelId cursor ↔
  m ∈ messages s ∧ Row.channel_id m = channelId ∧
  forward_selected s channelId cursor m.
Proof.
  intros Hs. pose proof (reachable_NoDup s Hs) as Hnd.
  unfold forward_rows. rewrite list_elem_of_order_by.
  destruct cursor as [hash|height].
  - rewrite query_join_filter by done.
    rewrite list_elem_of_filter, join_where_forward_selected. tauto.
  - rewrite list_elem_of_filter. simpl. tauto.
Qed.

Lemma Buffer_ge_trans (x y z : Buffer) :
  Buffer_compare x y ≠ Lt → Buffer_compare y z ≠ Lt → Buffer_compare x z ≠ Lt.
Proof.
  intros Hxy Hyz.
  destruct (Buffer_compare x y) eqn:Exy; [| done |].
  - apply Buffer_compare_eq in Exy as ->. done.
  - destruct (Buffer_compare y z) eqn:Eyz; [| done |].
    + apply Buffer_compare_eq in Eyz as ->. by rewrite Exy.
    + assert (Hzx : Buffer_compare z x = Lt).
      { apply (Buffer_compare_trans z y x).
        - by rewrite Buffer_compare_antisym, Eyz.
        - by rewrite Buffer_compare_antisym, Exy. }
      rewrite Buffer_compare_antisym, Hzx. done.
Qed.

(** At or after, column by column. *)
Lemma crdt_not_lt_spec (m a : Row.t) :
  crdt_asc m a ≠ Lt ↔
  Row.height m > Row.height a ∨
  (Row.height m = Row.height a ∧
   Buffer_compare (Row.hash m) (Row.hash a) ≠ Lt).
Proof.
  unfold crdt_asc.
  destruct (Z.compare_spec (Row.height m) (Row.height a)); split;
    intros; try done; try lia; intuition; try lia.
Qed.

Lemma crdt_ge_trans (m a o : Row.t) :
  crdt_asc m a ≠ Lt → crdt_asc a o ≠ Lt → crdt_asc m o ≠ Lt.
Proof.
  rewrite !crdt_not_lt_spec.
  intros [?|[? Hma]] [?|[? Hao]]; try (left; lia).
  right. split; [lia|]. by apply (Buffer_ge_trans _ (Row.hash a)).
Qed.

(** The rows a forward query by hash selects, the anchor being the stored
    row [a]. *)
Lemma forward_rows_from_row (s : Store) (channelId : Buffer) (a m : Row.t) :
  reachable s → a ∈ messages s → Row.channel_id a = channelId →
  m ∈ forward_rows s channelId (CursorHash (Row.hash a)) ↔
  m ∈ messages s ∧ Row.channel_id m = channelId ∧ crdt_asc m a ≠ Lt.
Proof.
  intros Hs Ha Hc. rewrite forward_rows_elem by done. simpl.
  rewrite crdt_not_lt_spec. split.
  - intros (Hm & Hmc & o & Ho & Hoc & Hoh & Hcond).
    assert (o = a) as ->; [|done].
    apply (NoDup_fmap_eq Row.hash (messages s)); try done.
    by apply reachable_NoDup.
  - intros (Hm & Hmc & Hcond). split_and!; try done.
    exists a. done.
Qed.

Lemma StronglySorted_drop {A} (R : relation A) (n : nat) (l : list A) :
  StronglySorted R l → StronglySorted R (drop n l).
Proof.
  intros Hl. rewrite <-(take_drop n l) in Hl.
  by apply StronglySorted_app_1_r in Hl.
Qed.

(** The rows at or after the row at index [n] of a sorted list are the
    list from index [n] on. *)
Lemma sorted_drop_elem (L : list Row.t) (n : nat) (a m : Row.t) :
  StronglySorted crdt_lt L → L !! n = Some a →
  m ∈ drop n L ↔ m ∈ L ∧ crdt_asc m a ≠ Lt.
Proof.
  intros HL Ha.
  pose proof HL as HL'. rewrite <-(take_drop n L) in HL'.
  rewrite (drop_S _ _ _ Ha) in HL'.
  apply StronglySorted_app in HL' as (Hbefore & _ & Hrest).
  apply StronglySorted_cons in Hrest as [Hafter _].
  rewrite Forall_forall in Hafter.
  rewrite (drop_S _ _ _ Ha), elem_of_cons. split.
  - intros [->|Hm].
    + split; [by eapply list_elem_of_lookup_2|].
      unfold crdt_asc. by rewrite Z.compare_refl, Buffer_compare_refl.
    + split; [by apply (subseteq_drop (S n))|].
      apply Hafter in Hm. unfold crdt_lt in Hm.
      rewrite crdt_asc_antisym, Hm. done.
  - intros [Hm Hge].
    rewrite <-(take_drop n L), elem_of_app in Hm.
    destruct Hm as [Hm|Hm].
    + exfalso. apply Hge. apply (Hbefore m a Hm). left.
    + by rewrite (drop_S _ _ _ Ha), elem_of_cons in Hm.
Qed.

Lemma forward_rows_next (s : Store) (channelId : Buffer) (cursor : Cursor)
    (n : nat) (a : Row.t) :
  reachable s →
  forward_rows s channelId cursor !! n = Some a →
  forward_rows s channelId (CursorHash (Row.hash a))
  = drop n (forward_rows s channelId cursor).
Proof.
  intros Hs Ha.
  pose proof (forward_rows_sorted s channelId cursor Hs) as HL.
  assert (HaL : a ∈ forward_rows s channelId cursor)
    by by eapply list_elem_of_lookup_2.
  apply (forward_rows_elem s channelId cursor a Hs) in HaL as (Hain & Hac & Hasel).
  apply crdt_sorted_unique.
  - by apply forward_rows_sorted.
  - by apply StronglySorted_drop.
  - intros m. rewrite (forward_rows_from_row s channelId a m) by done.
    rewrite (sorted_drop_elem _ n a m HL Ha).
    rewrite (forward_rows_elem s channelId cursor m Hs).
    split; [|tauto].
    intros (Hm & Hmc & Hge). split_and!; try done.
    destruct cursor as [hash|height]; simpl in *.
    + destruct Hasel as (o & Ho & Hoc & Hoh & Hcond).
      exists o. split_and!; try done.
      apply crdt_not_lt_spec. apply (crdt_ge_trans m a o); [done|].
      by apply crdt_not_lt_spec.
    + apply crdt_not_lt_spec in Hge. lia.
Qed.

(** X10: forward pages chain.  In a reachable store, when a forward query
    returns a [forwardHash], the forward query by that hash with the same
    limit returns the next page: its [backwardHash] is that hash, and the
    two pages one after the other are the page of the first query with
    twice the limit, which ends in the [forwardHash] of the second. *)
Theorem query_forward_next_page (s : Store) (channelId : Buffer)
    (cursor : Cursor) (limit : Z) (r : QueryResult) (h : Buffer) :
  reachable s →
  query s channelId cursor false limit = Ok r →
  forwardHash r = Some h →
  ∃ r',
    query s channelId (CursorHash h) false limit = Ok r' ∧
    backwardHash r' = Some h ∧
    query s channelId cursor false (2 * limit)
    = Ok {| abbreviatedMessages := abbreviatedMessages r ++ abbreviatedMessages r';
            backwardHash := backwardHash r;
            forwardHash := forwardHash r' |}.
Proof.
  intros Hs Hq Hf. rewrite query_forward_eq in Hq. injection Hq as <-.
  simpl in *.
  set (L := forward_rows s channelId cursor) in *.
  set (n := Z.to_nat (Z.max 0 limit)) in *.
  destruct (L !! n) as [a|] eqn:Ha; [|done]. injection Hf as <-.
  pose proof (forward_rows_next s channelId cursor n a Hs Ha) as Hnext.
  eexists. split; [apply query_forward_eq|]. simpl.
  rewrite Hnext. fold L n. split.
  - by rewrite head_lookup, lookup_drop, Nat.add_0_r, Ha.
  - rewrite query_forward_eq. fold L.
    replace (Z.to_nat (Z.max 0 (2 * limit))) with (n + n)%nat by (unfold n; lia).
    by rewrite <-fmap_app, take_take_drop, lookup_drop.
Qed.

Lemma query_forward_next_page_witness :
  ∃ r',
    query abcd_store test_channel (CursorHash [c_hash]) false 1 = Ok r' ∧
    backwardHash r' = Some [c_hash] ∧
    query abcd_store test_channel (CursorHeight 1) false (2 * 1)
    = Ok {| abbreviatedMessages :=
              [{| Abbreviated.hash := [b_hash]; Abbreviated.parents := [] |}]
              ++ abbreviatedMessages r';
            backwardHash := Some [b_hash];
            forwardHash := forwardHash r' |}.
Proof.
  apply (query_forward_next_page abcd_store test_channel (CursorHeight 1) 1
           {| abbreviatedMessages :=
                [{| Abbreviated.hash := [b_hash]; Abbreviated.parents := [] |}];
              backwardHash := Some [b_hash];
              forwardHash := Some [c_hash] |} [c_hash]).
  - apply reachable_run.
  - vm_compute. reflexivity.
  - reflexivity.
Defined.

(** X11: a message stored is the first a forward query by its hash
    returns.  In a reachable store with no transaction open, after an
    [addMessage] whose parents can be encoded, the
    forward query anchored at the hash of the message, with a limit from
    one to [MAX_SAFE_INTEGER], returns a page that starts with that hash and the parents
    the message was given, and [backwardHash] is that hash. *)
Theorem addMessage_then_query (s : Store) (message : Message.t) (limit : Z) :
  reachable s → in_transaction s = false →
  Forall (λ p, (length p <= 255)%nat) (Message.parents message) →
  1 ≤ limit ≤ MAX_SAFE_INTEGER →
  ∃ r,
    query (snd (addMessage s message)) (Message.channelId message)
          (CursorHash (Message.hash message)) false limit = Ok r ∧
    head (abbreviatedMessages r)
      = Some {| Abbreviated.hash := Message.hash message;
                Abbreviated.parents := Message.parents message |} ∧
    backwardHash r = Some (Message.hash message).
Proof.
  intros Hs _ Hps [Hlim _].
  assert (Hs' : reachable (snd (addMessage s message)))
    by apply (reachable_step s (OpAddMessage message) Hs).
  set (s' := snd (addMessage s message)) in *.
  assert (Ha : row_of message ∈ messages s').
  { unfold s'. rewrite addMessage_ok by done. simpl.
    apply elem_of_app. right. left. }
  pose proof (forward_rows_sorted s' (Message.channelId message)
                (CursorHash (Message.hash message)) Hs') as HL.
  pose proof (λ m, forward_rows_from_row s' (Message.channelId message)
                     (row_of message) m Hs' Ha eq_refl) as Helem.
  simpl in Helem.
  set (L := forward_rows s' (Message.channelId message)
              (CursorHash (Message.hash message))) in *.
  assert (HaL : row_of message ∈ L).
  { apply Helem. split_and!; try done.
    unfold crdt_asc. by rewrite Z.compare_refl, Buffer_compare_refl. }
  assert (Hhead : head L = Some (row_of message)).
  { destruct L as [|x L'] eqn:EL; [by apply elem_of_nil in HaL|].
    simpl. f_equal.
    apply elem_of_cons in HaL as [->|HaL']; [done|].
    apply StronglySorted_cons in HL as [Hx _].
    rewrite Forall_forall in Hx. apply Hx in HaL'.
    assert (Hge : crdt_asc x (row_of message) ≠ Lt).
    { apply (Helem x). left. }
    by destruct Hge. }
  eexists. split; [apply query_forward_eq|]. simpl. fold s' L.
  rewrite Hhead. split; [|done].
  destruct L as [|x L']; [done|]. injection Hhead as ->.
  replace (Z.to_nat (Z.max 0 limit)) with (S (Z.to_nat (limit - 1))) by lia.
  simpl. unfold abbreviate. simpl.
  by rewrite decode_encode_elems.
Qed.

Lemma addMessage_then_query_witness :
  ∃ r,
    query (snd (addMessage abcd_store (msg b_hash 1 [a_hash])))
          (Message.channelId (msg b_hash 1 [a_hash]))
          (CursorHash (Message.hash (msg b_hash 1 [a_hash]))) false 2 = Ok r ∧
    head (abbreviatedMessages r)
      = Some {| Abbreviated.hash := Message.hash (msg b_hash 1 [a_hash]);
                Abbreviated.parents := Message.parents (msg b_hash 1 [a_hash]) |} ∧
    backwardHash r = Some (Message.hash (msg b_hash 1 [a_hash])).
Proof.
  apply (addMessage_then_query abcd_store (msg b_hash 1 [a_hash]) 2).
  - apply reachable_run.
  - reflexivity.
  - repeat constructor; simpl; lia.
  - split; vm_compute; discriminate.
Defined.

(** ** Backward pages and batched lookups, on the test store *)

Lemma query_backward_page_witness :
  ∃ L : list Row.t,
    StronglySorted crdt_lt L ∧
    (∀ m, m ∈ L ↔
          m ∈ messages abcd_store ∧ Row.channel_id m = test_channel ∧
          backward_selected abcd_store test_channel [d_hash] m) ∧
    let n := Z.to_nat (Z.max 0 2) in
    query abcd_store test_channel (CursorHash [d_hash]) true 2
    = Ok {| abbreviatedMessages :=
              (λ m, {| Abbreviated.hash := Row.hash m;
                       Abbreviated.parents :=
                         decodeHashList (Row.parent_hashes m) |})
                <$> drop (length L - n) L;
            backwardHash :=
              if decide (n < length L)%nat
              then Row.hash <$> L !! (length L - S n)%nat else None;
            forwardHash := Some [d_hash] |}.
Proof.
  apply (query_backward_page abcd_store test_channel [d_hash] 2).
  - apply reachable_run.
  - vm_compute. discriminate.
Defined.

Lemma getMessages_distinct_one_batch_witness :
  ∃ result,
    getMessages abcd_store test_channel [[d_hash]; [a_hash]] = Ok result ∧
    length result = length [[d_hash]; [a_hash]] ∧
    ∀ i h, [[d_hash]; [a_hash]] !! i = Some h →
           is_Some (getMessage abcd_store test_channel h) ∧
           result !! i = Some (getMessage abcd_store test_channel h).
Proof.
  apply (getMessages_distinct_one_batch abcd_store test_channel
           [[d_hash]; [a_hash]]).
  - apply reachable_run.
  - apply (bool_decide_unpack _). vm_compute. exact I.
  - vm_compute. lia.
  - apply (bool_decide_unpack _). vm_compute. exact I.
Defined.

(** ** More on the codec *)

Lemma encodeHashList_Ok (xs : list Buffer) (data : Buffer) :
  encodeHashList xs = Ok data ↔
  Forall (λ x, (length x <= 255)%nat) xs ∧ data = encode_elems xs.
Proof.
  unfold encodeHashList. rewrite encoded_size_ok.
  destruct (encoded_size xs) as [n|e]; split.
  - intros [= <-]. eauto.
  - by intros [_ ->].
  - done.
  - by intros [[? ?] _].
Qed.

Lemma byte_to_nat_bounded (b : byte) : (byte_to_nat b <= 255)%nat.
Proof. unfold byte_to_nat. pose proof (Byte.to_N_bounded b). lia. Qed.

(** One turn of the loop of [decodeHashList]. *)
Lemma decodeHashList_cons (len : byte) (rest : Buffer) :
  decodeHashList (len :: rest)
  = take (byte_to_nat len) rest :: decodeHashList (drop (byte_to_nat len) rest).
Proof.
  unfold decodeHashList at 1. simpl. f_equal.
  apply decodeHashList_loop_fuel. rewrite length_drop. apply Nat.le_sub_l.
Qed.

Lemma decodeHashList_app (xs : list Buffer) (data : Buffer) :
  Forall (λ x, (length x <= 255)%nat) xs →
  decodeHashList (encode_elems xs ++ data) = xs ++ decodeHashList data.
Proof.
  induction 1 as [|x xs Hx _ IH]; [done|].
  simpl. rewrite decodeHashList_cons, (byte_to_nat_uint8 _ Hx).
  rewrite <-(assoc_L (++)), take_app_length, drop_app_length. by rewrite IH.
Qed.

(** X12: [encodeHashList] is injective: two lists of hashes with the same
    encoding are the same list. *)
Theorem encodeHashList_injective (xs ys : list Buffer) (data : Buffer) :
  encodeHashList xs = Ok data → encodeHashList ys = Ok data → xs = ys.
Proof.
  intros [Hxs ->]%encodeHashList_Ok [Hys Heq]%encodeHashList_Ok.
  rewrite <-(decode_encode_elems xs Hxs), Heq. by apply decode_encode_elems.
Qed.

Lemma encodeHashList_injective_witness : [[x61]; []] = [[x61]; ([] : Buffer)].
Proof.
  apply (encodeHashList_injective [[x61]; []] [[x61]; []] [x01; x61; x00]);
    reflexivity.
Defined.

(** X13: the buffer [encodeHashList] returns has the size its first loop
    computed, one byte more than its length for every element: the second
    loop fills the allocated buffer exactly. *)
Theorem encodeHashList_size (xs : list Buffer) (data : Buffer) :
  encodeHashList xs = Ok data →
  encoded_size xs = Ok (length data) ∧
  length data = (length xs + sum_list (length <$> xs))%nat.
Proof.
  intros [Hxs ->]%encodeHashList_Ok.
  induction Hxs as [|x xs Hx _ [IH1 IH2]]; [done|].
  csimpl. destruct (Nat.ltb_spec 255 (length x)); [lia|].
  rewrite IH1, length_app. split; [done|]. rewrite IH2. lia.
Qed.

Lemma encodeHashList_size_witness :
  encoded_size [[x61; x62]; []] = Ok (length [x02; x61; x62; x00]) ∧
  length [x02; x61; x62; x00]
    = (length [[x61; x62]; ([] : Buffer)]
       + sum_list (length <$> [[x61; x62]; []]))%nat.
Proof.
  apply (encodeHashList_size [[x61; x62]; []] [x02; x61; x62; x00]).
  reflexivity.
Defined.

(** X14: decoding an encoding followed by more bytes gives the encoded
    list followed by the decoding of those bytes; so the decoding of two
    encodings, one after the other, is the two lists one after the
    other. *)
Theorem decodeHashList_append (xs : list Buffer) (data rest : Buffer) :
  encodeHashList xs = Ok data →
  decodeHashList (data ++ rest) = xs ++ decodeHashList rest.
Proof.
  intros [Hxs ->]%encodeHashList_Ok. by apply decodeHashList_app.
Qed.

Lemma decodeHashList_append_witness :
  decodeHashList ([x01; x61] ++ [x01; x62])
  = [[x61]] ++ decodeHashList [x01; x62].
Proof.
  apply (decodeHashList_append [[x61]] [x01; x61] [x01; x62]). reflexivity.
Defined.

(** X15: [decodeHashList] does not reject a buffer that ends too early:
    when the last length byte announces more bytes than are left, the
    bytes that are left make the last hash. *)
Theorem decodeHashList_truncated (xs : list Buffer) (data : Buffer)
    (len : byte) (tail : Buffer) :
  encodeHashList xs = Ok data →
  (length tail <= byte_to_nat len)%nat →
  decodeHashList (data ++ len :: tail) = xs ++ [tail].
Proof.
  intros [Hxs ->]%encodeHashList_Ok Hlen.
  rewrite decodeHashList_app by done. f_equal.
  rewrite decodeHashList_cons, take_ge, drop_ge by done. done.
Qed.

Lemma decodeHashList_truncated_witness :
  decodeHashList ([x01; x61] ++ xff :: [x62; x63]) = [[x61]] ++ [[x62; x63]].
Proof.
  apply (decodeHashList_truncated [[x61]] [x01; x61] xff [x62; x63]).
  - reflexivity.
  - vm_compute. lia.
Defined.

(** ** Entities *)

Lemma entity_key_eq (e : Entity.t) (prefix id : string) :
  entity_key e = (prefix, id) ↔ Entity.prefix e = prefix ∧ Entity.id e = id.
Proof. unfold entity_key. split; [by intros [= -> ->] | by intros [-> ->]]. Qed.

(** The rows a lookup finds after the [REPLACE] of [storeEntity]. *)
Lemma lookup_storeEntity (db : Database) (prefix id : string) (blob : Buffer)
    (prefix' id' : string) :
  filter (λ e, Entity.prefix e = prefix' ∧ Entity.id e = id')
         (entities (storeEntity db prefix id blob))
  = if decide (prefix' = prefix ∧ id' = id)
    then [{| Entity.prefix := prefix; Entity.id := id; Entity.blob := blob |}]
    else filter (λ e, Entity.prefix e = prefix' ∧ Entity.id e = id')
                (entities db).
Proof.
  simpl. rewrite filter_app, filter_cons, filter_nil. simpl.
  destruct (decide (prefix' = prefix ∧ id' = id)) as [[-> ->]|Hne].
  - rewrite decide_True by done. rewrite filter_none; [done|].
    intros e He Hk. by apply list_elem_of_filter in He as [Hn _].
  - rewrite decide_False by (intros [? ?]; apply Hne; done).
    rewrite app_nil_r. apply filter_filter_absorb.
    intros e [-> ->]. done.
Qed.

Lemma lookup_removeEntity (db : Database) (prefix id prefix' id' : string) :
  filter (λ e, Entity.prefix e = prefix' ∧ Entity.id e = id')
         (entities (removeEntity db prefix id))
  = if decide (prefix' = prefix ∧ id' = id)
    then []
    else filter (λ e, Entity.prefix e = prefix' ∧ Entity.id e = id')
                (entities db).
Proof.
  simpl. destruct (decide (prefix' = prefix ∧ id' = id)) as [[-> ->]|Hne].
  - apply filter_none.
    intros e He Hk. by apply list_elem_of_filter in He as [Hn _].
  - apply filter_filter_absorb. intros e [-> ->]. done.
Qed.

Lemma retrieveEntity_is_Some (db : Database) (prefix id : string) :
  is_Some (retrieveEntity db prefix id) ↔ (prefix, id) ∈ entity_key <$> entities db.
Proof.
  unfold retrieveEntity. rewrite fmap_is_Some, list_elem_of_fmap. split.
  - intros [e He]. apply head_Some_elem_of in He.
    apply list_elem_of_filter in He as [Hk He].
    exists e. split; [|done]. symmetry. by apply entity_key_eq.
  - intros (e & Hk & He). symmetry in Hk. apply entity_key_eq in Hk.
    destruct (filter _ (entities db)) as [|e' l] eqn:E; [|by eexists].
    assert (Hin : e ∈ filter (λ e, Entity.prefix e = prefix ∧ Entity.id e = id)
                         (entities db)) by by apply list_elem_of_filter.
    rewrite E in Hin. by apply elem_of_nil in Hin.
Qed.

(** X16: [retrieveEntity] after [storeEntity] returns the blob stored,
    whatever was stored under the key before, and every other key
    retrieves what it did. *)
Theorem storeEntity_then_retrieve (db : Database) (prefix id : string)
    (blob : Buffer) :
  retrieveEntity (storeEntity db prefix id blob) prefix id = Some blob ∧
  (∀ prefix' id', ¬ (prefix' = prefix ∧ id' = id) →
     retrieveEntity (storeEntity db prefix id blob) prefix' id'
     = retrieveEntity db prefix' id').
Proof.
  unfold retrieveEntity. split.
  - rewrite lookup_storeEntity. by rewrite decide_True.
  - intros prefix' id' Hne. rewrite lookup_storeEntity.
    by rewrite decide_False.
Qed.

(** X17: after [removeEntity] the key retrieves nothing and every other
    key retrieves what it did; removing a key that retrieves nothing
    changes nothing. *)
Theorem removeEntity_then_retrieve (db : Database) (prefix id : string) :
  retrieveEntity (removeEntity db prefix id) prefix id = None ∧
  (∀ prefix' id', ¬ (prefix' = prefix ∧ id' = id) →
     retrieveEntity (removeEntity db prefix id) prefix' id'
     = retrieveEntity db prefix' id') ∧
  (retrieveEntity db prefix id = None → removeEntity db prefix id = db).
Proof.
  split_and!.
  - unfold retrieveEntity. rewrite lookup_removeEntity. by rewrite decide_True.
  - intros prefix' id' Hne. unfold retrieveEntity.
    rewrite lookup_removeEntity. by rewrite decide_False.
  - intros Hnone. destruct db as [st ents v]. unfold removeEntity. simpl.
    f_equal. apply filter_all. intros e He Hk.
    assert (Hsome : is_Some (retrieveEntity (mkDatabase st ents v) prefix id)).
    { apply retrieveEntity_is_Some. apply list_elem_of_fmap.
      exists e. split; [|done]. symmetry. by apply entity_key_eq. }
    rewrite Hnone in Hsome. by destruct Hsome.
Qed.

(** The unique index of [entities] holds in every reachable database. *)
Lemma db_reachable_NoDup (db : Database) :
  db_reachable db → NoDup (entity_key <$> entities db).
Proof.
  induction 1 as [|db op _ IH]; [constructor|].
  destruct op as [message|channelId|prefix id blob|prefix id|]; simpl; try done.
  - rewrite fmap_app. apply NoDup_app. split_and!.
    + by apply NoDup_fmap_filter.
    + intros k Hk. simpl. rewrite list_elem_of_singleton. intros ->.
      apply list_elem_of_fmap in Hk as (e & Hk & He).
      apply list_elem_of_filter in He as [Hn _].
      symmetry in Hk. by apply entity_key_eq in Hk.
    + apply NoDup_singleton.
  - by apply NoDup_fmap_filter.
  - constructor.
Qed.

(** X18: in a reachable database [getEntityKeys] lists, each once, the
    ids that [retrieveEntity] finds under the prefix. *)
Theorem getEntityKeys_retrieve (db : Database) (prefix : string) :
  db_reachable db →
  NoDup (getEntityKeys db prefix) ∧
  (∀ id, id ∈ getEntityKeys db prefix ↔ is_Some (retrieveEntity db prefix id)).
Proof.
  intros Hdb. pose proof (db_reachable_NoDup db Hdb) as Hnd.
  unfold getEntityKeys. rewrite order_by_Permutation. split.
  - induction (entities db) as [|e l IH]; [constructor|].
    rewrite fmap_cons in Hnd. apply NoDup_cons in Hnd as [He Hnd].
    rewrite filter_cons. destruct (decide (Entity.prefix e = prefix)) as [Hp|Hp];
      [|by apply IH].
    rewrite fmap_cons. apply NoDup_cons. split; [|by apply IH].
    intros Hin. apply list_elem_of_fmap in Hin as (e' & Hid & He').
    apply list_elem_of_filter in He' as [Hp' He'].
    apply He. apply list_elem_of_fmap. exists e'. split; [|done].
    unfold entity_key. congruence.
  - intros id. rewrite retrieveEntity_is_Some, !list_elem_of_fmap. split.
    + intros (e & -> & He). apply list_elem_of_order_by in He.
      apply list_elem_of_filter in He as [Hp He].
      exists e. split; [|done]. symmetry. by apply entity_key_eq.
    + intros (e & Hk & He). symmetry in Hk. apply entity_key_eq in Hk as [Hp Hi].
      exists e. split; [done|]. apply list_elem_of_order_by.
      by apply list_elem_of_filter.
Qed.

Lemma getEntityKeys_retrieve_witness :
  NoDup (getEntityKeys entities_database "identity") ∧
  (∀ id, id ∈ getEntityKeys entities_database "identity"
         ↔ is_Some (retrieveEntity entities_database "identity" id)).
Proof.
  apply (getEntityKeys_retrieve entities_database "identity").
  unfold entities_database. repeat apply db_reachable_step.
  apply db_reachable_open.
Defined.

(** X19: in a reachable database, [storeEntity] adds one to
    [getEntityCount] when the key retrieved nothing and leaves the count
    when it replaces an entity; [removeEntity] takes one off when the key
    retrieved something and leaves the count otherwise. *)
Theorem getEntityCount_changes (db : Database) (prefix id : string)
    (blob : Buffer) :
  db_reachable db →
  getEntityCount (storeEntity db prefix id blob)
    = match retrieveEntity db prefix id with
      | Some _ => getEntityCount db
      | None => S (getEntityCount db)
      end ∧
  (getEntityCount (removeEntity db prefix id)
   + match retrieveEntity db prefix id with Some _ => 1 | None => 0 end)%nat
    = getEntityCount db.
Proof.
  intros Hdb. pose proof (db_reachable_NoDup db Hdb) as Hnd.
  pose proof (length_filter_key entity_key (prefix, id) (entities db) Hnd) as Hlen.
  assert (Hfil :
    filter (λ e, ¬ (Entity.prefix e = prefix ∧ Entity.id e = id)) (entities db)
    = filter (λ e, entity_key e ≠ (prefix, id)) (entities db)).
  { apply list_filter_iff. intros e. by rewrite entity_key_eq. }
  unfold getEntityCount. simpl. rewrite length_app, Hfil. simpl.
  pose proof (retrieveEntity_is_Some db prefix id) as Hsome.
  destruct (retrieveEntity db prefix id) as [b|].
  - rewrite decide_True in Hlen by (apply Hsome; eauto). lia.
  - rewrite decide_False in Hlen; [lia|].
    intros Hin. apply Hsome in Hin. by destruct Hin.
Qed.

Lemma getEntityCount_changes_witness :
  getEntityCount (storeEntity entities_database "identity" "bob" [x09])
    = match retrieveEntity entities_database "identity" "bob" with
      | Some _ => getEntityCount entities_database
      | None => S (getEntityCount entities_database)
      end ∧
  (getEntityCount (removeEntity entities_database "identity" "bob")
   + match retrieveEntity entities_database "identity" "bob" with
     | Some _ => 1 | None => 0 end)%nat
    = getEntityCount entities_database.
Proof.
  apply (getEntityCount_changes entities_database "identity" "bob" [x09]).
  unfold entities_database. repeat apply db_reachable_step.
  apply db_reachable_open.
Defined.

(** The entities test of the suite. *)
Example entities_test :
  retrieveEntity (open fresh_database) "fake" "id" = None ∧
  getEntityKeys (storeEntity (open fresh_database) "fake" "id" [x68; x69]) "fake"
    = ["id"] ∧
  retrieveEntity (storeEntity (open fresh_database) "fake" "id" [x68; x69])
                 "fake" "id" = Some [x68; x69] ∧
  retrieveEntity (storeEntity (open fresh_database) "fake" "id" [x68; x69])
                 "fake" "other" = None.
Proof. repeat split; reflexivity. Qed.

(** ** Opening a database *)

(** X20: [open] sets the version to [CURRENT_VERSION]; it empties the
    three tables of a file whose version is below it, which then is as a
    new file opened, and keeps the rows of the three tables of any other
    file, a file of a later version included; opening what [open] left
    changes nothing. *)
Theorem open_version (db : Database) :
  user_version (open db) = CURRENT_VERSION ∧
  (user_version db < CURRENT_VERSION → open db = open fresh_database) ∧
  (CURRENT_VERSION ≤ user_version db →
   messages (store (open db)) = messages (store db) ∧
   parents (store (open db)) = parents (store db) ∧
   entities (open db) = entities db) ∧
  open (open db) = open db.
Proof.
  unfold open, CURRENT_VERSION. simpl. split_and!.
  - done.
  - intros Hlt. destruct (Z.ltb_spec (user_version db) 2); [done | lia].
  - intros Hge. by destruct (Z.ltb_spec (user_version db) 2); [lia|].
  - by destruct (Z.ltb_spec (user_version db) 2).
Qed.

(** ** Lookups and leaves agree *)

(** X21: [hasMessage] answers true exactly when [getMessage] returns a
    payload, in any store. *)
Theorem hasMessage_getMessage (s : Store) (channelId h : Buffer) :
  hasMessage s channelId h = true ↔ is_Some (getMessage s channelId h).
Proof.
  unfold hasMessage, getMessage. rewrite bool_decide_eq_true, fmap_is_Some.
  destruct (filter _ (messages s)) as [|r l]; simpl.
  - split; [done | by intros [? ?]].
  - split; [by eexists | done].
Qed.

(** X22: in a reachable store the leaves of a channel are stored messages
    of the channel, each listed once, so that there are no more leaves
    than [getMessageCount] counts. *)
Theorem getLeafHashes_stored (s : Store) (channelId : Buffer) :
  reachable s →
  NoDup (getLeafHashes s channelId) ∧
  (∀ h, h ∈ getLeafHashes s channelId → hasMessage s channelId h = true) ∧
  (length (getLeafHashes s channelId) <= getMessageCount s channelId)%nat.
Proof.
  intros Hs. split_and!.
  - by apply getLeafHashes_NoDup.
  - intros h Hh. apply getLeafHashes_elem in Hh as [Hst _].
    apply hasMessage_true. by apply Exists_exists in Hst.
  - unfold getLeafHashes, getMessageCount.
    rewrite length_fmap, order_by_length.
    rewrite <-(filter_filter_absorb _ (λ r, Row.channel_id r = channelId))
      by (by intros r [? _]).
    apply length_filter.
Qed.

Lemma getLeafHashes_stored_witness :
  NoDup (getLeafHashes leaves_store test_channel) ∧
  (∀ h, h ∈ getLeafHashes leaves_store test_channel →
        hasMessage leaves_store test_channel h = true) ∧
  (length (getLeafHashes leaves_store test_channel)
   <= getMessageCount leaves_store test_channel)%nat.
Proof.
  apply (getLeafHashes_stored leaves_store test_channel).
  unfold leaves_store.
  apply (reachable_step _ (OpAddMessage (msg b_hash 1 [a_hash]))).
  apply (reachable_step _ (OpAddMessage (msg c_hash 1 [a_hash]))).
  apply (reachable_step _ (OpAddMessage (msg a_hash 0 []))).
  apply reachable_empty.
Defined.
